(** * TB Resonance Optimizer: the assignment core of [TB-Resonance-Optimizer.py]

    The script reads an inventory of parts, a chip budget and one minimum
    resonance per TB, validates them, enumerates every 3-part combination with
    every chip/multiplier choice, and hands an integer program to PuLP.

    Numbers are modelled as the script has them: counts and chips are Python
    ints ([nat], [Z]); a resonance is a Python float, that is an IEEE-754
    binary64 number, modelled by Rocq's primitive [float] (the same format, the
    same round-to-nearest-even product).  Where a float meets an int (the
    eligibility test, the validation threshold) Python compares the two exact
    values; [float_units] gives the exact value of a float as an integer number
    of units of [2^-1074], the smallest positive binary64 number. *)

From Stdlib Require Import String.
From Stdlib Require Import ZArith List Bool Lia Floats Uint63 DecimalString.
Import ListNotations.

#[local] Set Warnings "-inexact-float".
#[local] Open Scope Z_scope.

(** ** Constants *)

Inductive part : Set := E | R4 | R3 | R2 | R1 | R | Y3 | Y2 | Y1 | Y.

(** The keys of [PART_BASE_VALUES], in the order the dict literal lists them. *)
Definition part_keys : list part := [E; R4; R3; R2; R1; R; Y3; Y2; Y1; Y].

Definition PART_BASE_VALUES (p : part) : Z :=
  match p with
  | E => 1000 | R4 => 850 | R3 => 700 | R2 => 550 | R1 => 400
  | R => 300 | Y3 => 200 | Y2 => 150 | Y1 => 100 | Y => 50
  end.

(** [MULTIPLIER_DATA.items()]: chips, multiplier. *)
Definition MULTIPLIER_DATA : list (Z * float) :=
  [ (0, 1.0%float); (1, 1.2%float); (2, 1.4%float); (4, 1.6%float);
    (6, 1.8%float); (9, 2.0%float); (12, 2.2%float); (16, 2.4%float);
    (20, 2.6%float); (25, 2.8%float); (30, 3.0%float); (36, 3.2%float);
    (42, 3.4%float); (48, 3.6%float); (54, 3.8%float); (60, 4.0%float);
    (66, 4.2%float); (72, 4.4%float); (78, 4.6%float); (84, 4.8%float);
    (90, 5.0%float) ].

Definition PARTS_PER_TB : nat := 3.

(** ** Python numbers *)

(** An int operand of a float product is converted first.  The ints converted
    here are sums of base values, far below [2^53], so the conversion is exact. *)
Definition float_of_int (z : Z) : float := PrimFloat.of_uint63 (Uint63.of_Z z).

(** One unit is [2^-1074]: every finite binary64 number is a whole number of units. *)
Definition unit_scale : Z := 2 ^ 1074.

Definition float_units (f : float) : Z :=
  match Prim2SF f with
  | S754_finite s m e => (if s then - Z.pos m else Z.pos m) * 2 ^ (e + 1074)
  | _ => 0
  end.

(** [f >= z] for a float [f] and an int [z]: Python compares the exact values. *)
Definition float_ge_int (f : float) (z : Z) : bool :=
  match Prim2SF f with
  | S754_nan => false
  | S754_infinity s => negb s
  | _ => z * unit_scale <=? float_units f
  end.

(** [z > f] for an int [z] and a float [f]. *)
Definition int_gt_float (z : Z) (f : float) : bool :=
  match Prim2SF f with
  | S754_nan => false
  | S754_infinity s => s
  | _ => float_units f <? z * unit_scale
  end.

(** [int(f)]: truncation toward zero. *)
Definition int_of_float (f : float) : Z := Z.quot (float_units f) unit_scale.

(** [max] of a non-empty sequence of floats keeps the first largest item. *)
Definition float_max (l : list float) : float :=
  match l with
  | [] => nan
  | v :: t => fold_left (fun m w => if (m <? w)%float then w else m) t v
  end.

Definition Zsum (l : list Z) : Z := fold_right Z.add 0 l.

(** ** Inputs: the values of the form's widgets *)

Record input : Type := {
  NUM_TBS : nat;                          (* number_input, min_value=1 *)
  total_chips_available : Z;              (* number_input, min_value=0 *)
  available_parts_input : part -> nat;    (* one number_input per part type *)
  minreq : nat -> Z                       (* the widget keyed minreq_i *)
}.

Definition min_reqs_per_tb (inp : input) : list Z :=
  map (minreq inp) (seq 0 (NUM_TBS inp)).

(** What the widgets can deliver. *)
Definition well_formed (inp : input) : Prop :=
  (1 <= NUM_TBS inp)%nat /\ 0 <= total_chips_available inp /\
  forall i, 0 <= minreq inp i.

(** ** Input validation *)

Definition NOT_ENOUGH_PARTS : string := "Not enough parts to fill all TBs.".
Definition LOW_CHIPS : string :=
  "Chips are very low; you may not be able to meet requirements.".
Definition TOO_HIGH : string :=
  "One or more minimum resonance requirements are impossibly high.".

(** [sum(available_parts_input.values())] *)
Definition parts_total (inp : input) : nat :=
  list_sum (map (available_parts_input inp) part_keys).

(** [sum(PART_BASE_VALUES[p] for p in PART_BASE_VALUES) * max(MULTIPLIER_DATA.values())] *)
Definition min_threshold : float :=
  (float_of_int (Zsum (map PART_BASE_VALUES part_keys))
   * float_max (map snd MULTIPLIER_DATA))%float.

Definition input_issues (inp : input) : list string :=
  (if (parts_total inp <? PARTS_PER_TB * NUM_TBS inp)%nat
   then [NOT_ENOUGH_PARTS] else [])
  ++ (if total_chips_available inp <? Z.of_nat (NUM_TBS inp)
      then [LOW_CHIPS] else [])
  ++ (if existsb (fun x => int_gt_float x min_threshold) (min_reqs_per_tb inp)
      then [TOO_HIGH] else []).

(** ** Candidate generation *)

Definition part_instance_list (inp : input) : list part :=
  flat_map (fun part_type => repeat part_type (available_parts_input inp part_type))
           part_keys.

(** [itertools.combinations(l, k)], in its lexicographic order. *)
Fixpoint combinations {A : Type} (l : list A) (k : nat) {struct l} : list (list A) :=
  match k, l with
  | O, _ => [[]]
  | S _, [] => []
  | S k', a :: t => map (cons a) (combinations t k') ++ combinations t k
  end.

Record combo : Type := {
  idxs : list nat;
  parts : list part;
  chips : Z;
  resonance : float
}.

Definition base_of (ps : list part) : Z := Zsum (map PART_BASE_VALUES ps).

(** The inner loop over [MULTIPLIER_DATA.items()] for one index tuple.  An
    index of the tuple is always below [N]; [nth]'s default is never used. *)
Definition combos_of (pil : list part) (ix : list nat) : list combo :=
  let ps := map (fun i => nth i pil E) ix in
  let base := base_of ps in
  map (fun cm : Z * float =>
         {| idxs := ix; parts := ps; chips := fst cm;
            resonance := (float_of_int base * snd cm)%float |})
      MULTIPLIER_DATA.

Definition combos (inp : input) : list combo :=
  let pil := part_instance_list inp in
  flat_map (combos_of pil) (combinations (seq 0 (length pil)) PARTS_PER_TB).

(** Binomial coefficient, by Pascal's rule. *)
Fixpoint choose (n k : nat) {struct n} : nat :=
  match k, n with
  | O, _ => 1
  | S _, O => 0
  | S k', S n' => choose n' k' + choose n' k
  end%nat.

(** ** The integer program handed to PuLP *)

(** A key [(cidx, tb)] of the dict [x]; every variable is [LpBinary]. *)
Definition var : Set := (nat * nat)%type.

Definition enumerate {A : Type} (l : list A) : list (nat * A) :=
  combine (seq 0 (length l)) l.

Definition no_combo : combo :=
  {| idxs := []; parts := []; chips := 0; resonance := 0%float |}.

(** [combos[cidx]] *)
Definition combo_at (inp : input) (cidx : nat) : combo :=
  nth cidx (combos inp) no_combo.

(** The keys of [x], in insertion order: a variable exists only where the
    combo's resonance reaches the TB's minimum. *)
Definition x_keys (inp : input) : list var :=
  flat_map (fun tb =>
    flat_map (fun ic : nat * combo =>
                if float_ge_int (resonance (snd ic)) (nth tb (min_reqs_per_tb inp) 0)
                then [(fst ic, tb)] else [])
             (enumerate (combos inp)))
    (seq 0 (NUM_TBS inp)).

(** [i in l] *)
Definition mem (i : nat) (l : list nat) : bool := existsb (Nat.eqb i) l.

Inductive LpSense : Set := LpConstraintLE | LpConstraintEQ.

Record LpConstraint : Type := {
  lhs : list (var * Z);
  sense : LpSense;
  rhs : Z
}.

Record LpProblem : Type := {
  objective : list (var * float);
  constraints : list LpConstraint
}.

(** [lpSum(x[k] for k in keys)] *)
Definition ones (keys : list var) : list (var * Z) := map (fun k => (k, 1)) keys.

Definition prob (inp : input) : LpProblem :=
  let x := x_keys inp in
  {| objective := map (fun k => (k, resonance (combo_at inp (fst k)))) x;
     constraints :=
       map (fun tb => {| lhs := ones (filter (fun k => snd k =? tb)%nat x);
                         sense := LpConstraintEQ; rhs := 1 |})
           (seq 0 (NUM_TBS inp))
       ++ map (fun i => {| lhs := ones (filter (fun k => mem i (idxs (combo_at inp (fst k)))) x);
                           sense := LpConstraintLE; rhs := 1 |})
              (seq 0 (length (part_instance_list inp)))
       ++ [ {| lhs := map (fun k => (k, chips (combo_at inp (fst k)))) x;
               sense := LpConstraintLE; rhs := total_chips_available inp |} ] |}.

(** *** What a solver owes: the contract of [prob.solve()]

    PuLP and the solver behind it are not part of the script.  They are taken
    by their contract: status [LpStatusOptimal] comes with variable values
    that satisfy every constraint, and any other status means that no values
    satisfy the constraints.  A branch-and-cut solver stops within its
    tolerances; it does not promise the exact maximum of an objective with
    float coefficients.  How far the objective of its answer may stay below
    the maximum is the parameter [tol], in units of [2^-1074], the unit in
    which the exact values of the coefficients are compared.  Which answer
    within the tolerance is returned is left open. *)

Definition valuation : Type := var -> bool.

Definition lp_value (v : valuation) (e : list (var * Z)) : Z :=
  Zsum (map (fun ka => if v (fst ka) then snd ka else 0) e).

Definition holds (v : valuation) (c : LpConstraint) : Prop :=
  match sense c with
  | LpConstraintLE => lp_value v (lhs c) <= rhs c
  | LpConstraintEQ => lp_value v (lhs c) = rhs c
  end.

Definition feasible (P : LpProblem) (v : valuation) : Prop :=
  Forall (holds v) (constraints P).

Definition objective_units (P : LpProblem) (v : valuation) : Z :=
  Zsum (map (fun ka => if v (fst ka) then float_units (snd ka) else 0) (objective P)).

Definition within_tolerance (tol : Z) (P : LpProblem) (v : valuation) : Prop :=
  feasible P v /\
  forall w, feasible P w -> objective_units P w <= objective_units P v + tol.

(** [Some v]: status [LpStatusOptimal] with [varValue]s [v]; [None]: any other status. *)
Inductive pulp_solve (tol : Z) (P : LpProblem) : option valuation -> Prop :=
| solve_optimal v : within_tolerance tol P v -> pulp_solve tol P (Some v)
| solve_not_optimal : (forall v, ~ feasible P v) -> pulp_solve tol P None.

(** ** The Solve button *)

(** [l[i] = a]; the script only assigns below [len(l)]. *)
Fixpoint list_set {A : Type} (l : list A) (i : nat) (a : A) : list A :=
  match l, i with
  | [], _ => []
  | _ :: t, O => a :: t
  | b :: t, S j => b :: list_set t j a
  end.

(** [tb_configs] after the loop over [x.items()]; [v k] is [var.varValue > 0.5]. *)
Definition tb_configs (inp : input) (v : valuation) : list (option combo) :=
  fold_left (fun cfgs k =>
               if v k then list_set cfgs (snd k) (Some (combo_at inp (fst k))) else cfgs)
            (x_keys inp) (repeat None (NUM_TBS inp)).

(** The table loop reads every config; a [None] left in [tb_configs] would
    raise there. *)
Fixpoint all_configs (l : list (option combo)) : option (list combo) :=
  match l with
  | [] => Some []
  | None :: _ => None
  | Some c :: t => option_map (cons c) (all_configs t)
  end.

(** [total_resonance_sum], accumulated from the int [0] in TB order. *)
Definition total_resonance_sum (cfgs : list combo) : float :=
  fold_left (fun s c => (s + resonance c)%float) cfgs (float_of_int 0).

Inductive outcome : Type :=
| FixInputIssues (issues : list string)
    (* "Please fix input issues before solving."; no solve *)
| BestConfiguration (configs : list combo) (total : float)
    (* "Best Configuration Found!", the table and the total *)
| NoValidConfiguration
    (* "No valid configuration found with the given parts and chips." *)
| ConfigMissing.
    (* an exception out of the table loop *)

Inductive Solve (tol : Z) (inp : input) : outcome -> Prop :=
| Solve_issues :
    input_issues inp <> [] ->
    Solve tol inp (FixInputIssues (input_issues inp))
| Solve_best v cfgs :
    input_issues inp = [] ->
    pulp_solve tol (prob inp) (Some v) ->
    all_configs (tb_configs inp v) = Some cfgs ->
    Solve tol inp (BestConfiguration cfgs (total_resonance_sum cfgs))
| Solve_missing v :
    input_issues inp = [] ->
    pulp_solve tol (prob inp) (Some v) ->
    all_configs (tb_configs inp v) = None ->
    Solve tol inp ConfigMissing
| Solve_none :
    input_issues inp = [] ->
    pulp_solve tol (prob inp) None ->
    Solve tol inp NoValidConfiguration.

(** The handler as a function of the answer [prob.solve()] leaves behind. *)
Definition Solve_button (inp : input) (answer : option valuation) : outcome :=
  match input_issues inp with
  | _ :: _ => FixInputIssues (input_issues inp)
  | [] =>
      match answer with
      | None => NoValidConfiguration
      | Some v =>
          match all_configs (tb_configs inp v) with
          | Some cfgs => BestConfiguration cfgs (total_resonance_sum cfgs)
          | None => ConfigMissing
          end
      end
  end.

(** ** Assignments, as the specification speaks of them *)

(** Exact sum of the scores, in units; the figure the objective maximises. *)
Definition total_score (cfgs : list combo) : Z :=
  Zsum (map (fun c => float_units (resonance c)) cfgs).

Definition total_chips (cfgs : list combo) : Z := Zsum (map chips cfgs).

(** No part instance index lies in the groups of two different slots. *)
Definition disjoint_slots (cfgs : list combo) : Prop :=
  forall t1 t2 c1 c2 i,
    t1 <> t2 -> nth_error cfgs t1 = Some c1 -> nth_error cfgs t2 = Some c2 ->
    In i (idxs c1) -> In i (idxs c2) -> False.

Definition meets_minimums (inp : input) (cfgs : list combo) : Prop :=
  forall tb c, nth_error cfgs tb = Some c ->
    float_ge_int (resonance c) (nth tb (min_reqs_per_tb inp) 0) = true.

(** One candidate group per slot, within the three constraints. *)
Definition feasible_assignment (inp : input) (cfgs : list combo) : Prop :=
  length cfgs = NUM_TBS inp /\
  Forall (fun c => In c (combos inp)) cfgs /\
  meets_minimums inp cfgs /\
  disjoint_slots cfgs /\
  total_chips cfgs <= total_chips_available inp.

(** ** Selections: one candidate index per TB

    The chosen variables of a valuation, read slot by slot, and the search
    that a solver's answer is compared with. *)

Definition eligible (inp : input) (cidx tb : nat) : bool :=
  float_ge_int (resonance (combo_at inp cidx)) (nth tb (min_reqs_per_tb inp) 0).

Definition elig_list (inp : input) (tb : nat) : list nat :=
  let C := combos inp in
  let m := nth tb (min_reqs_per_tb inp) 0 in
  filter (fun cidx => float_ge_int (resonance (nth cidx C no_combo)) m)
         (seq 0 (length C)).

(** The candidate indices whose variable for slot [tb] is set. *)
Definition picked (inp : input) (v : valuation) (tb : nat) : list nat :=
  filter (fun cidx => v (cidx, tb)) (elig_list inp tb).

Definition selection (inp : input) (v : valuation) : list nat :=
  map (fun tb => hd O (picked inp v tb)) (seq 0 (NUM_TBS inp)).

Definition configs_of (inp : input) (js : list nat) : list combo :=
  let C := combos inp in map (fun j => nth j C no_combo) js.

(** The valuation that sets exactly the variables of a selection. *)
Definition val_of (js : list nat) : valuation :=
  fun k => match nth_error js (snd k) with
           | Some j => (j =? fst k)%nat
           | None => false
           end.

(** In how many groups of [cfgs] the part instance [i] occurs. *)
Definition uses (cfgs : list combo) (i : nat) : Z :=
  Zsum (map (fun c => if mem i (idxs c) then 1 else 0) cfgs).

Definition sel_feasible (inp : input) (js : list nat) : Prop :=
  length js = NUM_TBS inp /\
  (forall tb j, nth_error js tb = Some j -> In j (elig_list inp tb)) /\
  (forall i, (i < length (part_instance_list inp))%nat -> uses (configs_of inp js) i <= 1) /\
  total_chips (configs_of inp js) <= total_chips_available inp.

Definition sel_ok (inp : input) (js : list nat) : bool :=
  let cfgs := configs_of inp js in
  forallb (fun i => uses cfgs i <=? 1) (seq 0 (length (part_instance_list inp)))
  && (total_chips cfgs <=? total_chips_available inp).

Fixpoint product {A : Type} (ls : list (list A)) : list (list A) :=
  match ls with
  | [] => [[]]
  | l :: r => flat_map (fun a => map (cons a) (product r)) l
  end.

Definition selections (inp : input) : list (list nat) :=
  filter (sel_ok inp) (product (map (elig_list inp) (seq 0 (NUM_TBS inp)))).

Definition better (inp : input) (best : option (list nat)) (js : list nat)
  : option (list nat) :=
  match best with
  | None => Some js
  | Some b =>
      if total_score (configs_of inp b) <? total_score (configs_of inp js)
      then Some js else Some b
  end.

(** Exhaustive search over the selections: a solver that meets the contract. *)
Definition reference_solve (inp : input) : option (list nat) :=
  fold_left (better inp) (selections inp) None.

(** Strictly increasing indices within [lo, hi): one way to write a subset. *)
Fixpoint increasing (lo hi : nat) (l : list nat) : Prop :=
  match l with
  | [] => True
  | i :: t => (lo <= i < hi)%nat /\ increasing (S i) hi t
  end.

(** Whether the search lists a selection. *)
Definition listed (inp : input) (js : list nat) : bool :=
  existsb (fun l => if list_eq_dec Nat.eq_dec l js then true else false)
          (selections inp).

(** ** Sample inputs *)

(** Inventory E:2, R2:2, 9 chips, one TB with minimum 0. *)
Definition inp_E2_R2 : input :=
  {| NUM_TBS := 1; total_chips_available := 9;
     available_parts_input :=
       fun p => match p with E => 2 | R2 => 2 | _ => 0 end%nat;
     minreq := fun _ => 0 |}.

(** Three E parts, one chip, one TB asking for 16000. *)
Definition inp_min_16000 : input :=
  {| NUM_TBS := 1; total_chips_available := 1;
     available_parts_input := fun p => match p with E => 3 | _ => 0 end%nat;
     minreq := fun _ => 16000 |}.

(** Two Y parts only, five chips, one TB with minimum 0. *)
Definition inp_two_parts : input :=
  {| NUM_TBS := 1; total_chips_available := 5;
     available_parts_input := fun p => match p with Y => 2 | _ => 0 end%nat;
     minreq := fun _ => 0 |}.

(** Three E parts, no chips, one TB with minimum 0. *)
Definition inp_no_chips : input :=
  {| NUM_TBS := 1; total_chips_available := 0;
     available_parts_input := fun p => match p with E => 3 | _ => 0 end%nat;
     minreq := fun _ => 0 |}.

(** Six parts, 170 chips, two TBs with minimums 14000 and 10000. *)
Definition inp_two_tbs : input :=
  {| NUM_TBS := 2; total_chips_available := 170;
     available_parts_input :=
       fun p => match p with E => 3 | R4 => 1 | R3 => 2 | _ => 0 end%nat;
     minreq := fun i => match i with O => 14000 | _ => 10000 end |}.

Definition cfgs_two_tbs : list combo :=
  [ {| idxs := [0; 1; 2]%nat; parts := [E; E; E]; chips := 90;
       resonance := 15000%float |};
    {| idxs := [3; 4; 5]%nat; parts := [R4; R3; R3]; chips := 78;
       resonance := 10350%float |} ].

Definition cfgs_E2_R2 : list combo :=
  [ {| idxs := [0; 1; 2]%nat; parts := [E; E; R2]; chips := 9;
       resonance := 5100%float |} ].

Definition cfgs_E2_R2' : list combo :=
  [ {| idxs := [0; 1; 3]%nat; parts := [E; E; R2]; chips := 9;
       resonance := 5100%float |} ].

Definition cfgs_no_chips : list combo :=
  [ {| idxs := [0; 1; 2]%nat; parts := [E; E; E]; chips := 0;
       resonance := 3000%float |} ].

(** Three E parts, one chip, one TB asking for 22000. *)
Definition inp_min_22000 : input :=
  {| NUM_TBS := 1; total_chips_available := 1;
     available_parts_input := fun p => match p with E => 3 | _ => 0 end%nat;
     minreq := fun _ => 22000 |}.

(** Inventory R3:1, R2:2, R:3, 89 chips, two TBs with minimums 7920 and 1800:
    two assignments whose totals differ by [2^-40]. *)
Definition inp_near_tie : input :=
  {| NUM_TBS := 2; total_chips_available := 89;
     available_parts_input :=
       fun p => match p with R3 => 1 | R2 => 2 | R => 3 | _ => 0 end%nat;
     minreq := fun i => match i with O => 7920 | _ => 1800 end |}.

(** R3, R2, R2 at 78 chips (4.6) and R, R, R at 9 chips (2.0): 8280 + 1800. *)
Definition cfgs_near_tie : list combo :=
  [ {| idxs := [0; 1; 2]%nat; parts := [R3; R2; R2]; chips := 78;
       resonance := 8280%float |};
    {| idxs := [3; 4; 5]%nat; parts := [R; R; R]; chips := 9;
       resonance := 1800%float |} ].

(** R3, R2, R2 at 72 chips (4.4) and R, R, R at 16 chips (2.4): the float
    product 1800 * 4.4 is 7920.0000000000009. *)
Definition cfgs_near_tie_better : list combo :=
  [ {| idxs := [0; 1; 2]%nat; parts := [R3; R2; R2]; chips := 72;
       resonance := (float_of_int 1800 * 4.4)%float |};
    {| idxs := [3; 4; 5]%nat; parts := [R; R; R]; chips := 16;
       resonance := 2160%float |} ].

(** The E:2, R2:2 input once more, from a form whose unused widgets hold
    other values. *)
Definition inp_E2_R2_again : input :=
  {| NUM_TBS := 1; total_chips_available := 9;
     available_parts_input :=
       fun p => match p with E => 2 | R2 => 2 | _ => 0 end%nat;
     minreq := fun i => match i with O => 0 | _ => 4500 end |}.

(** ** The results table *)

Definition part_name (p : part) : string :=
  match p with
  | E => "E" | R4 => "R4" | R3 => "R3" | R2 => "R2" | R1 => "R1"
  | R => "R" | Y3 => "Y3" | Y2 => "Y2" | Y1 => "Y1" | Y => "Y"
  end%string.

(** [d[k]] on the multiplier dict; [None] stands for a KeyError. *)
Fixpoint dict_get (d : list (Z * float)) (k : Z) : option float :=
  match d with
  | [] => None
  | (k', m) :: t => if k' =? k then Some m else dict_get t k
  end.

(** [int(f)] as Python has it: it raises on nan and on the infinities. *)
Definition py_int (f : float) : option Z :=
  match Prim2SF f with
  | S754_nan | S754_infinity _ => None
  | _ => Some (int_of_float f)
  end.

(** [str(z)] for an int that is not negative. *)
Definition str_int (z : Z) : string :=
  NilZero.string_of_uint (N.to_uint (Z.to_N z)).

(** The number of tenths nearest to [u] units, ties to even. *)
Definition nearest_tenths (u : Z) : Z :=
  let n := 10 * u in
  let q := n / unit_scale in
  let r := n mod unit_scale in
  if (unit_scale <? 2 * r) || ((2 * r =? unit_scale) && Z.odd q) then q + 1 else q.

(** [f"{x:.1f}"]: the decimal with one digit after the point that is nearest
    to the exact value of the float, ties to the even digit. *)
Definition format_1f (f : float) : string :=
  match Prim2SF f with
  | S754_nan => "nan"
  | S754_infinity s => if s then "-inf" else "inf"
  | S754_zero s => if s then "-0.0" else "0.0"
  | S754_finite s m e =>
      let t := nearest_tenths (Z.pos m * 2 ^ (e + 1074)) in
      (if s then "-" else "") ++ str_int (t / 10) ++ "." ++ str_int (t mod 10)
  end%string.

Record table_row : Type := {
  TB : string;
  Parts_Used : string;
  Multiplier : string;
  Chips : Z;
  Resonance : Z
}.

(** One pass of the loop over [enumerate(tb_configs)]; [None] when the
    multiplier lookup or [int] raises. *)
Definition table_row_of (i : nat) (config : combo) : option table_row :=
  let parts_string := String.concat ", " (map part_name (parts config)) in
  match dict_get MULTIPLIER_DATA (chips config) with
  | None => None
  | Some multiplier_value =>
      match py_int (resonance config) with
      | None => None
      | Some r =>
          Some {| TB := ("TB " ++ str_int (Z.of_nat i + 1))%string;
                  Parts_Used := parts_string;
                  Multiplier := (format_1f multiplier_value ++ "x")%string;
                  Chips := chips config;
                  Resonance := r |}
      end
  end.

Fixpoint data_from (i : nat) (cfgs : list combo) : option (list table_row) :=
  match cfgs with
  | [] => Some []
  | config :: t =>
      match table_row_of i config with
      | None => None
      | Some row => option_map (cons row) (data_from (S i) t)
      end
  end.

(** The list [data] behind the results table. *)
Definition data (cfgs : list combo) : option (list table_row) := data_from 0 cfgs.

(** The part instances and the part types a configuration uses, slot by slot. *)
Definition used_instances (cfgs : list combo) : list nat := flat_map idxs cfgs.
Definition used_parts (cfgs : list combo) : list part := flat_map parts cfgs.

Definition part_eq_dec (p q : part) : {p = q} + {p <> q}.
Proof. decide equality. Defined.

(** Two inputs that agree on what the script reads. *)
Definition same_inputs (a b : input) : Prop :=
  NUM_TBS a = NUM_TBS b /\
  total_chips_available a = total_chips_available b /\
  (forall p, available_parts_input a p = available_parts_input b p) /\
  min_reqs_per_tb a = min_reqs_per_tb b.

(** * Facts about lists and sums *)

Lemma Zsum_app (l1 l2 : list Z) : Zsum (l1 ++ l2) = Zsum l1 + Zsum l2.
Proof. induction l1 as [|a l1 IH]; simpl; lia. Qed.

Lemma Zsum_flat_map {A B : Type} (f : B -> Z) (g : A -> list B) (l : list A) :
  Zsum (map f (flat_map g l)) = Zsum (map (fun a => Zsum (map f (g a))) l).
Proof.
  induction l as [|a l IH]; simpl; [reflexivity|].
  now rewrite map_app, Zsum_app, IH.
Qed.

Lemma Zsum_filter {A : Type} (p : A -> bool) (f : A -> Z) (l : list A) :
  Zsum (map (fun a => if p a then f a else 0) l) = Zsum (map f (filter p l)).
Proof.
  induction l as [|a l IH]; simpl; [reflexivity|].
  destruct (p a); simpl; lia.
Qed.

Lemma Zsum_ext_in {A : Type} (f g : A -> Z) (l : list A) :
  (forall a, In a l -> f a = g a) -> Zsum (map f l) = Zsum (map g l).
Proof. intros H. now rewrite (map_ext_in f g l H). Qed.

Lemma Zsum_zero {A : Type} (f : A -> Z) (l : list A) :
  (forall a, In a l -> f a = 0) -> Zsum (map f l) = 0.
Proof.
  induction l as [|a l IH]; simpl; intros H; [reflexivity|].
  rewrite (H a), IH by auto. reflexivity.
Qed.

Lemma Zsum_nonneg {A : Type} (f : A -> Z) (l : list A) :
  (forall a, In a l -> 0 <= f a) -> 0 <= Zsum (map f l).
Proof.
  induction l as [|a l IH]; simpl; intros H; [lia|].
  specialize (H a (or_introl eq_refl)) as Ha.
  assert (0 <= Zsum (map f l)) by auto. lia.
Qed.

(** A sum whose only non-zero term sits at [t]. *)
Lemma Zsum_delta (g : nat -> Z) (t : nat) (l : list nat) :
  NoDup l -> In t l ->
  Zsum (map (fun u => if (u =? t)%nat then g u else 0) l) = g t.
Proof.
  induction l as [|a l IH]; simpl; intros Hnd Hin; [contradiction|].
  inversion Hnd as [|? ? Hna Hnd']; subst.
  destruct (Nat.eqb_spec a t) as [->|Hne].
  - rewrite Zsum_zero; [lia|].
    intros u Hu. destruct (Nat.eqb_spec u t); [congruence|reflexivity].
  - destruct Hin as [Heq|Hin]; [contradiction|]. rewrite IH by assumption. lia.
Qed.

Lemma length_flat_map_const {A B : Type} (g : A -> list B) (c : nat) (l : list A) :
  (forall a, length (g a) = c) -> length (flat_map g l) = (length l * c)%nat.
Proof.
  intros H. induction l as [|a l IH]; simpl; [reflexivity|].
  now rewrite length_app, H, IH.
Qed.

Lemma map_seq_nth {A : Type} (l : list A) (d : A) :
  map (fun i => nth i l d) (seq 0 (length l)) = l.
Proof.
  induction l as [|a l IH]; simpl; [reflexivity|].
  f_equal. rewrite <- seq_shift, map_map. exact IH.
Qed.

Lemma filter_eqb_NoDup (a : nat) (l : list nat) :
  NoDup l -> In a l -> filter (fun j => (a =? j)%nat) l = [a].
Proof.
  induction l as [|b l IH]; simpl; intros Hnd Hin; [contradiction|].
  inversion Hnd as [|? ? Hnb Hnd']; subst.
  destruct (Nat.eqb_spec a b) as [->|Hne].
  - f_equal. clear IH Hin Hnd Hnd'. induction l as [|c l IH]; simpl; [reflexivity|].
    destruct (Nat.eqb_spec b c) as [->|_].
    + exfalso. apply Hnb. now left.
    + apply IH. intros H. apply Hnb. now right.
  - destruct Hin as [Heq|Hin]; [congruence|]. now apply IH.
Qed.

Lemma mem_In (i : nat) (l : list nat) : mem i l = true <-> In i l.
Proof.
  unfold mem. rewrite existsb_exists. split.
  - intros [x [Hx Heq]]. apply Nat.eqb_eq in Heq. now subst.
  - intros H. exists i. split; [assumption|apply Nat.eqb_refl].
Qed.

(** * The candidate generator *)

Lemma choose_0 (n : nat) : choose n 0 = 1%nat.
Proof. now destruct n. Qed.

Lemma choose_1 (n : nat) : choose n 1 = n.
Proof. induction n as [|n IH]; simpl; [reflexivity|]. rewrite choose_0, IH. lia. Qed.

Lemma choose_2 (n : nat) : (2 * choose (S n) 2 = S n * n)%nat.
Proof.
  induction n as [|n IH]; [reflexivity|].
  change (choose (S (S n)) 2) with (choose (S n) 1 + choose (S n) 2)%nat.
  rewrite choose_1. lia.
Qed.

Lemma choose_3 (n : nat) : (6 * choose n 3 = n * (n - 1) * (n - 2))%nat.
Proof.
  destruct n as [|[|n]]; [reflexivity|reflexivity|].
  replace (S (S n) - 1)%nat with (S n) by lia.
  replace (S (S n) - 2)%nat with n by lia.
  induction n as [|n IH]; [reflexivity|].
  change (choose (S (S (S n))) 3)
    with (choose (S (S n)) 2 + choose (S (S n)) 3)%nat.
  pose proof (choose_2 (S n)). nia.
Qed.

Lemma length_combinations {A : Type} (l : list A) (k : nat) :
  length (combinations l k) = choose (length l) k.
Proof.
  revert k. induction l as [|a t IH]; intros [|k]; simpl; try reflexivity.
  now rewrite length_app, length_map, !IH.
Qed.

Lemma length_part_instance_list (inp : input) :
  length (part_instance_list inp) = parts_total inp.
Proof.
  unfold part_instance_list, parts_total.
  induction part_keys as [|p l IH]; simpl; [reflexivity|].
  now rewrite length_app, repeat_length, IH.
Qed.

Lemma length_combos (inp : input) :
  length (combos inp)
  = (choose (length (part_instance_list inp)) 3 * length MULTIPLIER_DATA)%nat.
Proof.
  unfold combos.
  rewrite (length_flat_map_const _ (length MULTIPLIER_DATA)).
  - now rewrite length_combinations, length_seq.
  - intros ix. unfold combos_of. now rewrite length_map.
Qed.

Lemma increasing_weaken (lo lo' hi : nat) (l : list nat) :
  (lo' <= lo)%nat -> increasing lo hi l -> increasing lo' hi l.
Proof. destruct l as [|i t]; simpl; [trivial|]. intros H [Hi Ht]. split; [lia|assumption]. Qed.

Lemma increasing_below (lo hi : nat) (l : list nat) :
  increasing lo hi l -> forall i, In i l -> (lo <= i < hi)%nat.
Proof.
  revert lo. induction l as [|a t IH]; simpl; intros lo H i Hi; [contradiction|].
  destruct H as [Ha Ht]. destruct Hi as [<-|Hi]; [assumption|].
  specialize (IH _ Ht i Hi). lia.
Qed.

(** The tuples of [combinations(range(a, a+n), k)] are exactly the strictly
    increasing [k]-tuples of the range. *)
Lemma combinations_seq_iff (n a k : nat) (l : list nat) :
  In l (combinations (seq a n) k) <-> length l = k /\ increasing a (a + n) l.
Proof.
  revert a k l. induction n as [|n IH]; intros a k l; simpl.
  - destruct k as [|k]; simpl.
    + split.
      * intros [<-|[]]. now split.
      * intros [Hl _]. left. symmetry. now apply length_zero_iff_nil.
    + split; [contradiction|]. intros [Hl Hinc].
      destruct l as [|i t]; [discriminate|]. simpl in Hinc. lia.
  - destruct k as [|k]; simpl.
    + split.
      * intros [<-|[]]. now split.
      * intros [Hl _]. left. symmetry. now apply length_zero_iff_nil.
    + rewrite in_app_iff, in_map_iff. split.
      * intros [[t [<- Ht]]|Hl].
        -- apply IH in Ht. destruct Ht as [Hlen Hinc]. simpl. split; [now f_equal|].
           split; [lia|]. now replace (a + S n)%nat with (S a + n)%nat by lia.
        -- apply IH in Hl. destruct Hl as [Hlen Hinc]. split; [assumption|].
           replace (a + S n)%nat with (S a + n)%nat by lia.
           apply increasing_weaken with (lo := S a); [lia|assumption].
      * intros [Hlen Hinc]. destruct l as [|i t]; [discriminate|].
        simpl in Hlen, Hinc. destruct Hinc as [Hi Ht].
        replace (a + S n)%nat with (S a + n)%nat in * by lia.
        destruct (Nat.eq_dec i a) as [->|Hne].
        -- left. exists t. split; [reflexivity|]. apply IH. split; [lia|assumption].
        -- right. apply IH. split; [assumption|]. simpl. split; [lia|assumption].
Qed.

Lemma NoDup_map_inj {A B : Type} (f : A -> B) (l : list A) :
  (forall x y, f x = f y -> x = y) -> NoDup l -> NoDup (map f l).
Proof.
  intros Hinj. induction 1 as [|a l Hna Hnd IH]; simpl; constructor; [|assumption].
  intros Hin. apply in_map_iff in Hin. destruct Hin as [b [Hb Hin]].
  apply Hinj in Hb. now subst.
Qed.

Lemma NoDup_combinations_seq (n a k : nat) : NoDup (combinations (seq a n) k).
Proof.
  revert a k. induction n as [|n IH]; intros a k; simpl.
  - destruct k; [repeat constructor; auto|constructor].
  - destruct k as [|k]; [repeat constructor; auto|].
    apply NoDup_app.
    + apply NoDup_map_inj; [|apply IH].
      intros x y Hxy. now inversion Hxy.
    + apply IH.
    + intros l Hl Hl'. apply in_map_iff in Hl. destruct Hl as [t [<- _]].
      apply combinations_seq_iff in Hl'. destruct Hl' as [_ Hinc].
      simpl in Hinc. lia.
Qed.

Lemma in_combos (inp : input) (c : combo) :
  In c (combos inp) <->
  exists ix cm,
    In ix (combinations (seq 0 (length (part_instance_list inp))) PARTS_PER_TB) /\
    In cm MULTIPLIER_DATA /\
    c = {| idxs := ix;
           parts := map (fun i => nth i (part_instance_list inp) E) ix;
           chips := fst cm;
           resonance :=
             (float_of_int (base_of (map (fun i => nth i (part_instance_list inp) E) ix))
              * snd cm)%float |}.
Proof.
  unfold combos. rewrite in_flat_map. split.
  - intros [ix [Hix Hc]]. unfold combos_of in Hc. apply in_map_iff in Hc.
    destruct Hc as [cm [<- Hcm]]. now exists ix, cm.
  - intros [ix [cm [Hix [Hcm ->]]]]. exists ix. split; [assumption|].
    unfold combos_of. apply in_map_iff. now exists cm.
Qed.

(** Every index of a candidate is the index of a part instance, and a
    candidate has three of them, in increasing order. *)
Lemma combos_idxs (inp : input) (c : combo) :
  In c (combos inp) ->
  length (idxs c) = 3%nat /\ increasing 0 (length (part_instance_list inp)) (idxs c).
Proof.
  intros Hc. apply in_combos in Hc. destruct Hc as [ix [cm [Hix [_ ->]]]]. simpl.
  now apply combinations_seq_iff in Hix.
Qed.

Lemma combos_idxs_below (inp : input) (c : combo) (i : nat) :
  In c (combos inp) -> In i (idxs c) -> (i < length (part_instance_list inp))%nat.
Proof.
  intros Hc Hi. apply combos_idxs in Hc. destruct Hc as [_ Hinc].
  apply (increasing_below _ _ _ Hinc) in Hi. lia.
Qed.

Lemma parts_at_indices (pil : list part) (ix : list nat) :
  (forall i, In i ix -> (i < length pil)%nat) ->
  Forall2 (fun i p => nth_error pil i = Some p) ix (map (fun i => nth i pil E) ix).
Proof.
  induction ix as [|i t IH]; simpl; intros H; constructor.
  - apply nth_error_nth'. apply H. now left.
  - apply IH. intros j Hj. apply H. now right.
Qed.

Lemma NoDup_pairs {A B : Type} (l : list A) (m : list B) :
  NoDup l -> NoDup m -> NoDup (flat_map (fun a => map (pair a) m) l).
Proof.
  intros Hl Hm. induction Hl as [|a l Hna Hnd IH]; simpl; [constructor|].
  apply NoDup_app.
  - apply NoDup_map_inj; [|assumption]. intros x y Hxy. now inversion Hxy.
  - assumption.
  - intros [a' b] Hin Hin'. apply in_map_iff in Hin. destruct Hin as [b' [Heq _]].
    inversion Heq; subst. apply in_flat_map in Hin'. destruct Hin' as [a'' [Ha'' Hin']].
    apply in_map_iff in Hin'. destruct Hin' as [b'' [Heq' _]]. inversion Heq'; subst.
    contradiction.
Qed.

Lemma NoDup_multiplier_costs : NoDup (map fst MULTIPLIER_DATA).
Proof.
  cbn. repeat (constructor; [cbn; intros H;
    repeat (destruct H as [H|H]; [discriminate H|]); exact H|]).
  constructor.
Qed.

Lemma combo_keys (inp : input) :
  map (fun c => (idxs c, chips c)) (combos inp)
  = flat_map (fun ix => map (pair ix) (map fst MULTIPLIER_DATA))
             (combinations (seq 0 (length (part_instance_list inp))) PARTS_PER_TB).
Proof.
  unfold combos. cbv zeta.
  generalize (combinations (seq 0 (length (part_instance_list inp))) PARTS_PER_TB).
  intros l. induction l as [|ix l IH]; [reflexivity|].
  cbn [flat_map]. rewrite map_app, IH. reflexivity.
Qed.

(** Every base value is a multiple of 50, between 50 and 1000. *)
Lemma base_value_steps (p : part) :
  exists k, 1 <= k <= 20 /\ PART_BASE_VALUES p = 50 * k.
Proof.
  destruct p; cbn;
    [exists 20|exists 17|exists 14|exists 11|exists 8
    |exists 6|exists 4|exists 3|exists 2|exists 1]; lia.
Qed.

(** The float product of a sum of three base values and a multiplier of the
    table lies within [2^-40] of the exact product of the two. *)
Lemma product_rounding (p1 p2 p3 : part) (cm : Z * float) :
  In cm MULTIPLIER_DATA ->
  Z.abs (float_units
           (float_of_int (PART_BASE_VALUES p1 + PART_BASE_VALUES p2 + PART_BASE_VALUES p3)
            * snd cm)
         - (PART_BASE_VALUES p1 + PART_BASE_VALUES p2 + PART_BASE_VALUES p3)
           * float_units (snd cm)) <= 2 ^ 1034.
Proof.
  intros Hcm.
  assert (Hchk :
    forallb (fun cm : Z * float =>
      forallb (fun n : nat =>
        Z.abs (float_units (float_of_int (50 * Z.of_nat n) * snd cm)
               - 50 * Z.of_nat n * float_units (snd cm)) <=? 2 ^ 1034)
        (seq 3 58)) MULTIPLIER_DATA = true)
    by (vm_compute; reflexivity).
  destruct (base_value_steps p1) as [k1 [H1 ->]].
  destruct (base_value_steps p2) as [k2 [H2 ->]].
  destruct (base_value_steps p3) as [k3 [H3 ->]].
  rewrite forallb_forall in Hchk. specialize (Hchk cm Hcm).
  rewrite forallb_forall in Hchk.
  specialize (Hchk (Z.to_nat (k1 + k2 + k3))).
  replace (50 * Z.of_nat (Z.to_nat (k1 + k2 + k3)))
    with (50 * k1 + 50 * k2 + 50 * k3) in Hchk by lia.
  apply Z.leb_le. apply Hchk. apply in_seq. lia.
Qed.

(** C2. For an inventory that expands to [N] part instances the generator
    yields exactly [C(N,3) * |MULTIPLIER_DATA|] candidates, one for every
    increasing index triple below [N] and every table entry, and the score of
    each candidate is the sum of the base values of the part types at its
    three indices multiplied by the multiplier of its table entry: the float
    product of the two, which lies within [2^-40] of their exact product. *)
Theorem candidate_generator_count_and_scores (inp : input) :
  let pil := part_instance_list inp in
  let N := length pil in
  N = parts_total inp /\
  length (combos inp) = (choose N 3 * length MULTIPLIER_DATA)%nat /\
  (6 * choose N 3 = N * (N - 1) * (N - 2))%nat /\
  NoDup (map (fun c => (idxs c, chips c)) (combos inp)) /\
  (forall ix cost,
      In (ix, cost) (map (fun c => (idxs c, chips c)) (combos inp)) <->
      length ix = 3%nat /\ increasing 0 N ix /\ In cost (map fst MULTIPLIER_DATA)) /\
  (forall c, In c (combos inp) ->
     exists i1 i2 i3 p1 p2 p3 mult,
       idxs c = [i1; i2; i3] /\ parts c = [p1; p2; p3] /\
       nth_error pil i1 = Some p1 /\ nth_error pil i2 = Some p2 /\
       nth_error pil i3 = Some p3 /\
       In (chips c, mult) MULTIPLIER_DATA /\
       resonance c
       = (float_of_int (PART_BASE_VALUES p1 + PART_BASE_VALUES p2 + PART_BASE_VALUES p3)
          * mult)%float /\
       Z.abs (float_units (resonance c)
              - (PART_BASE_VALUES p1 + PART_BASE_VALUES p2 + PART_BASE_VALUES p3)
                * float_units mult) <= 2 ^ 1034).
Proof.
  intros pil N. repeat split.
  - apply length_part_instance_list.
  - apply length_combos.
  - apply choose_3.
  - rewrite combo_keys. apply NoDup_pairs.
    + apply NoDup_combinations_seq.
    + apply NoDup_multiplier_costs.
  - rewrite combo_keys in H. apply in_flat_map in H. destruct H as [ix' [Hix' H]].
    apply in_map_iff in H. destruct H as [ch [Heq _]]. inversion Heq; subst.
    now apply combinations_seq_iff in Hix'.
  - rewrite combo_keys in H. apply in_flat_map in H. destruct H as [ix' [Hix' H]].
    apply in_map_iff in H. destruct H as [ch [Heq _]]. inversion Heq; subst.
    now apply combinations_seq_iff in Hix'.
  - rewrite combo_keys in H. apply in_flat_map in H. destruct H as [ix' [_ H]].
    apply in_map_iff in H. destruct H as [ch [Heq Hch]]. now inversion Heq; subst.
  - intros [Hlen [Hinc Hcost]]. rewrite combo_keys. apply in_flat_map. exists ix. split.
    + apply combinations_seq_iff. now split.
    + apply in_map_iff. now exists cost.
  - intros c Hc. pose proof (fun i => combos_idxs_below inp c i Hc) as Hlt.
    pose proof (combos_idxs inp c Hc) as [Hlen _].
    apply in_combos in Hc. destruct Hc as [ix [[ch mult] [Hix [Hcm ->]]]].
    cbn [idxs parts chips resonance fst snd] in *.
    destruct ix as [|i1 [|i2 [|i3 [|i4 ix]]]]; try discriminate Hlen.
    cbn [map]. unfold base_of. cbn [map Zsum fold_right].
    set (pil' := part_instance_list inp).
    replace (PART_BASE_VALUES (nth i1 pil' E)
             + (PART_BASE_VALUES (nth i2 pil' E)
                + (PART_BASE_VALUES (nth i3 pil' E) + 0)))
      with (PART_BASE_VALUES (nth i1 pil' E) + PART_BASE_VALUES (nth i2 pil' E)
            + PART_BASE_VALUES (nth i3 pil' E)) by lia.
    exists i1, i2, i3, (nth i1 pil' E), (nth i2 pil' E), (nth i3 pil' E), mult.
    split; [reflexivity|]. split; [reflexivity|].
    split; [apply nth_error_nth'; apply Hlt; cbn; tauto|].
    split; [apply nth_error_nth'; apply Hlt; cbn; tauto|].
    split; [apply nth_error_nth'; apply Hlt; cbn; tauto|].
    split; [assumption|]. split; [reflexivity|].
    apply (product_rounding _ _ _ (ch, mult) Hcm).
Qed.

(** * The integer program, slot by slot *)

Lemma enumerate_filter {A B : Type} (P : A -> bool) (F : nat -> B) (d : A)
      (l : list A) (s : nat) :
  flat_map (fun ic : nat * A => if P (snd ic) then [F (fst ic)] else [])
           (combine (seq s (length l)) l)
  = map F (filter (fun j => P (nth (j - s) l d)) (seq s (length l))).
Proof.
  revert s. induction l as [|a l IH]; intros s; [reflexivity|].
  cbn [length seq combine flat_map filter fst snd].
  rewrite IH.
  rewrite (filter_ext_in (fun j => P (nth (j - s) (a :: l) d))
                         (fun j => P (nth (j - S s) l d)) (seq (S s) (length l))).
  - rewrite Nat.sub_diag. cbn [nth]. destruct (P a); reflexivity.
  - intros j Hj. apply in_seq in Hj.
    replace (j - s)%nat with (S (j - S s)) by lia. reflexivity.
Qed.

Lemma flat_map_delta {B : Type} (g : nat -> list B) (t : nat) (l : list nat) :
  NoDup l -> In t l -> flat_map (fun u => if (u =? t)%nat then g u else []) l = g t.
Proof.
  induction l as [|a l IH]; simpl; intros Hnd Hin; [contradiction|].
  inversion Hnd as [|? ? Hna Hnd']; subst.
  destruct (Nat.eqb_spec a t) as [->|Hne].
  - replace (flat_map _ l) with (@nil B); [apply app_nil_r|].
    symmetry. clear IH Hin Hnd Hnd'. induction l as [|c l IH]; simpl; [reflexivity|].
    destruct (Nat.eqb_spec c t) as [->|_].
    + exfalso. apply Hna. now left.
    + apply IH. intros H. apply Hna. now right.
  - destruct Hin as [Heq|Hin]; [contradiction|]. now apply IH.
Qed.

Lemma filter_flat_map {A B : Type} (p : B -> bool) (g : A -> list B) (l : list A) :
  filter p (flat_map g l) = flat_map (fun a => filter p (g a)) l.
Proof.
  induction l as [|a l IH]; simpl; [reflexivity|]. now rewrite filter_app, IH.
Qed.

Lemma last_cons {A : Type} (a d : A) (l : list A) : last (a :: l) d = last l a.
Proof.
  revert a d. induction l as [|b l IH]; intros a d; [reflexivity|].
  change (last (a :: b :: l) d) with (last (b :: l) d). now rewrite !IH.
Qed.

Lemma length_list_set {A : Type} (l : list A) (i : nat) (a : A) :
  length (list_set l i a) = length l.
Proof.
  revert i. induction l as [|b l IH]; intros [|i]; simpl; try reflexivity.
  now rewrite IH.
Qed.

Lemma nth_list_set_eq {A : Type} (l : list A) (i : nat) (a d : A) :
  (i < length l)%nat -> nth i (list_set l i a) d = a.
Proof.
  revert i. induction l as [|b l IH]; intros [|i]; simpl; intros H; try lia.
  - reflexivity.
  - apply IH. lia.
Qed.

Lemma nth_list_set_neq {A : Type} (l : list A) (i j : nat) (a d : A) :
  i <> j -> nth j (list_set l i a) d = nth j l d.
Proof.
  revert i j. induction l as [|b l IH]; intros [|i] [|j]; simpl; intros H;
    try reflexivity; try lia.
  apply IH. lia.
Qed.

Lemma Zsum_ones {A : Type} (l : list A) : Zsum (map (fun _ => 1) l) = Z.of_nat (length l).
Proof.
  induction l as [|a l IH]; [reflexivity|].
  cbn [map length]. rewrite Nat2Z.inj_succ.
  change (Zsum (1 :: map (fun _ => 1) l)) with (1 + Zsum (map (fun _ : A => 1) l)).
  lia.
Qed.

Lemma lp_value_map (v : valuation) (a : var -> Z) (l : list var) :
  lp_value v (map (fun k => (k, a k)) l) = Zsum (map (fun k => if v k then a k else 0) l).
Proof. unfold lp_value. now rewrite map_map. Qed.

Lemma lp_value_ones_filter (v : valuation) (q : var -> bool) (l : list var) :
  lp_value v (ones (filter q l))
  = Zsum (map (fun k => if v k then (if q k then 1 else 0) else 0) l).
Proof.
  unfold lp_value, ones. rewrite map_map. cbn [fst snd].
  rewrite <- (Zsum_filter q (fun k => if v k then 1 else 0)).
  apply Zsum_ext_in. intros k _. destruct (q k), (v k); reflexivity.
Qed.

Section Formulation.

Variable inp : input.

Lemma elig_list_eq (tb : nat) :
  elig_list inp tb = filter (fun cidx => eligible inp cidx tb) (seq 0 (length (combos inp))).
Proof. reflexivity. Qed.

Lemma configs_of_eq (js : list nat) : configs_of inp js = map (combo_at inp) js.
Proof. reflexivity. Qed.

Lemma x_keys_eq :
  x_keys inp
  = flat_map (fun tb => map (fun j => (j, tb)) (elig_list inp tb)) (seq 0 (NUM_TBS inp)).
Proof.
  unfold x_keys, enumerate. apply flat_map_ext. intros tb.
  rewrite (enumerate_filter
             (fun c => float_ge_int (resonance c) (nth tb (min_reqs_per_tb inp) 0))
             (fun j => (j, tb)) no_combo).
  rewrite elig_list_eq. f_equal. apply filter_ext. intros j.
  rewrite Nat.sub_0_r. reflexivity.
Qed.

Lemma NoDup_elig_list (tb : nat) : NoDup (elig_list inp tb).
Proof. rewrite elig_list_eq. apply NoDup_filter, seq_NoDup. Qed.

Lemma in_elig_list (tb j : nat) :
  In j (elig_list inp tb) <-> (j < length (combos inp))%nat /\ eligible inp j tb = true.
Proof. rewrite elig_list_eq, filter_In, in_seq. intuition lia. Qed.

(** A sum over the set variables, regrouped by slot. *)
Lemma keys_sum (v : valuation) (f : var -> Z) :
  Zsum (map (fun k => if v k then f k else 0) (x_keys inp))
  = Zsum (map (fun tb => Zsum (map (fun j => f (j, tb)) (picked inp v tb)))
              (seq 0 (NUM_TBS inp))).
Proof.
  rewrite x_keys_eq, Zsum_flat_map. apply Zsum_ext_in. intros tb _.
  rewrite map_map. unfold picked.
  now rewrite <- (Zsum_filter (fun j => v (j, tb)) (fun j => f (j, tb))).
Qed.

Lemma slot_constraint_value (v : valuation) (tb : nat) :
  (tb < NUM_TBS inp)%nat ->
  lp_value v (ones (filter (fun k => snd k =? tb)%nat (x_keys inp)))
  = Z.of_nat (length (picked inp v tb)).
Proof.
  intros Htb. rewrite lp_value_ones_filter.
  rewrite (keys_sum v (fun k => if (snd k =? tb)%nat then 1 else 0)).
  cbn [snd].
  rewrite (Zsum_ext_in _ (fun u => if (u =? tb)%nat
                                   then Z.of_nat (length (picked inp v u)) else 0)).
  - apply (Zsum_delta (fun u => Z.of_nat (length (picked inp v u))));
      [apply seq_NoDup|]. apply in_seq. lia.
  - intros u _. destruct (u =? tb)%nat; [apply Zsum_ones|].
    apply Zsum_zero. reflexivity.
Qed.

Lemma instance_constraint_value (v : valuation) (i : nat) :
  lp_value v (ones (filter (fun k => mem i (idxs (combo_at inp (fst k)))) (x_keys inp)))
  = Zsum (map (fun tb =>
                 Zsum (map (fun j => if mem i (idxs (combo_at inp j)) then 1 else 0)
                           (picked inp v tb)))
              (seq 0 (NUM_TBS inp))).
Proof.
  rewrite lp_value_ones_filter.
  now rewrite (keys_sum v (fun k => if mem i (idxs (combo_at inp (fst k))) then 1 else 0)).
Qed.

Lemma chips_constraint_value (v : valuation) :
  lp_value v (map (fun k => (k, chips (combo_at inp (fst k)))) (x_keys inp))
  = Zsum (map (fun tb => Zsum (map (fun j => chips (combo_at inp j)) (picked inp v tb)))
              (seq 0 (NUM_TBS inp))).
Proof.
  rewrite lp_value_map.
  now rewrite (keys_sum v (fun k => chips (combo_at inp (fst k)))).
Qed.

Lemma objective_value (v : valuation) :
  objective_units (prob inp) v
  = Zsum (map (fun tb =>
                 Zsum (map (fun j => float_units (resonance (combo_at inp j)))
                           (picked inp v tb)))
              (seq 0 (NUM_TBS inp))).
Proof.
  unfold objective_units, prob. cbn [objective]. rewrite map_map. cbn [fst snd].
  exact (keys_sum v (fun k => float_units (resonance (combo_at inp (fst k))))).
Qed.

(** The constraints of [prob], read on the picked candidates. *)
Lemma feasible_iff (v : valuation) :
  feasible (prob inp) v <->
  (forall tb, (tb < NUM_TBS inp)%nat -> length (picked inp v tb) = 1%nat) /\
  (forall i, (i < length (part_instance_list inp))%nat ->
     Zsum (map (fun tb =>
                  Zsum (map (fun j => if mem i (idxs (combo_at inp j)) then 1 else 0)
                            (picked inp v tb)))
               (seq 0 (NUM_TBS inp))) <= 1) /\
  Zsum (map (fun tb => Zsum (map (fun j => chips (combo_at inp j)) (picked inp v tb)))
            (seq 0 (NUM_TBS inp))) <= total_chips_available inp.
Proof.
  unfold feasible, prob. cbn [constraints].
  rewrite !Forall_app, !Forall_map, !Forall_forall.
  unfold holds. cbn [sense lhs rhs].
  split.
  - intros [Hslot [Hinst Hchips]]. split; [|split].
    + intros tb Htb. specialize (Hslot tb). rewrite in_seq in Hslot.
      rewrite slot_constraint_value in Hslot by assumption.
      specialize (Hslot ltac:(lia)). lia.
    + intros i Hi. rewrite <- instance_constraint_value. apply Hinst.
      apply in_seq. lia.
    + rewrite <- chips_constraint_value.
      apply (Hchips _ (or_introl eq_refl)).
  - intros [Hslot [Hinst Hchips]]. split; [|split].
    + intros tb Htb. apply in_seq in Htb.
      rewrite slot_constraint_value by lia. rewrite Hslot by lia. reflexivity.
    + intros i Hi. apply in_seq in Hi. rewrite instance_constraint_value.
      apply Hinst. lia.
    + intros c [<-|[]]. cbn [sense lhs rhs]. now rewrite chips_constraint_value.
Qed.

End Formulation.

(** * Valuations and selections *)

Lemma all_configs_map_Some (l : list combo) : all_configs (map Some l) = Some l.
Proof. induction l as [|c l IH]; simpl; [reflexivity|]. now rewrite IH. Qed.

Lemma filter_map_pair (v : valuation) (t tb : nat) (l : list nat) :
  filter (fun k => v k && (snd k =? t)%nat) (map (fun j => (j, tb)) l)
  = if (tb =? t)%nat then map (fun j => (j, tb)) (filter (fun j => v (j, tb)) l) else [].
Proof.
  induction l as [|a l IH]; cbn [map filter snd].
  - now destruct (tb =? t)%nat.
  - rewrite IH. destruct (tb =? t)%nat, (v (a, tb)); reflexivity.
Qed.

Section Selections.

Variable inp : input.

Lemma uses_configs_of (js : list nat) (i : nat) :
  uses (configs_of inp js) i
  = Zsum (map (fun j => if mem i (idxs (combo_at inp j)) then 1 else 0) js).
Proof. unfold uses. now rewrite configs_of_eq, map_map. Qed.

Lemma total_chips_configs_of (js : list nat) :
  total_chips (configs_of inp js) = Zsum (map (fun j => chips (combo_at inp j)) js).
Proof. unfold total_chips. now rewrite configs_of_eq, map_map. Qed.

Lemma total_score_configs_of (js : list nat) :
  total_score (configs_of inp js)
  = Zsum (map (fun j => float_units (resonance (combo_at inp j))) js).
Proof. unfold total_score. now rewrite configs_of_eq, map_map. Qed.

Lemma picked_single_sum (v : valuation) (F : nat -> Z) :
  (forall tb, (tb < NUM_TBS inp)%nat -> length (picked inp v tb) = 1%nat) ->
  Zsum (map (fun tb => Zsum (map F (picked inp v tb))) (seq 0 (NUM_TBS inp)))
  = Zsum (map F (selection inp v)).
Proof.
  intros H. unfold selection. rewrite map_map. apply Zsum_ext_in.
  intros tb Htb. apply in_seq in Htb. specialize (H tb ltac:(lia)).
  destruct (picked inp v tb) as [|j [|j' l]]; try discriminate H.
  cbn [map hd Zsum fold_right]. lia.
Qed.

(** From a feasible valuation to the selection it encodes. *)
Lemma feasible_selection (v : valuation) :
  feasible (prob inp) v -> sel_feasible inp (selection inp v).
Proof.
  intros Hf. apply feasible_iff in Hf. destruct Hf as [Hslot [Hinst Hchips]].
  unfold sel_feasible. split; [|split; [|split]].
  - unfold selection. now rewrite length_map, length_seq.
  - intros tb j Hn. unfold selection in Hn. rewrite nth_error_map in Hn.
    rewrite nth_error_seq in Hn. destruct (Nat.ltb_spec tb (NUM_TBS inp)) as [Hlt|];
      [|discriminate]. cbn in Hn. injection Hn as <-.
    specialize (Hslot tb Hlt).
    assert (Hin : In (hd O (picked inp v tb)) (picked inp v tb)).
    { destruct (picked inp v tb) as [|j l]; [discriminate|]. now left. }
    unfold picked in Hin at 2. apply filter_In in Hin. tauto.
  - intros i Hi. rewrite uses_configs_of.
    rewrite <- (picked_single_sum v) by assumption. now apply Hinst.
  - rewrite total_chips_configs_of.
    now rewrite <- (picked_single_sum v) by assumption.
Qed.

Lemma feasible_objective (v : valuation) :
  feasible (prob inp) v ->
  objective_units (prob inp) v = total_score (configs_of inp (selection inp v)).
Proof.
  intros Hf. apply feasible_iff in Hf. destruct Hf as [Hslot _].
  rewrite objective_value, total_score_configs_of.
  now apply picked_single_sum.
Qed.

Lemma picked_val_of (js : list nat) (tb j : nat) :
  nth_error js tb = Some j -> In j (elig_list inp tb) ->
  picked inp (val_of js) tb = [j].
Proof.
  intros Hn Hin. unfold picked.
  rewrite (filter_ext _ (fun cidx => (j =? cidx)%nat)).
  - apply filter_eqb_NoDup; [apply NoDup_elig_list|assumption].
  - intros cidx. unfold val_of. cbn [fst snd]. now rewrite Hn.
Qed.

Lemma selection_val_of (js : list nat) :
  sel_feasible inp js -> selection inp (val_of js) = js.
Proof.
  intros [Hlen [Helig _]]. unfold selection. rewrite <- Hlen.
  transitivity (map (fun i => nth i js O) (seq 0 (length js))); [|apply map_seq_nth].
  apply map_ext_in.
  intros tb Htb. apply in_seq in Htb.
  assert (Hn : nth_error js tb = Some (nth tb js O)) by (apply nth_error_nth'; lia).
  rewrite (picked_val_of js tb _ Hn); [reflexivity|]. now apply Helig.
Qed.

(** From a selection to the valuation that encodes it. *)
Lemma sel_feasible_lp (js : list nat) :
  sel_feasible inp js -> feasible (prob inp) (val_of js).
Proof.
  intros Hs. pose proof (selection_val_of js Hs) as Hsel.
  destruct Hs as [Hlen [Helig [Huses Hchips]]].
  assert (Hslot : forall tb, (tb < NUM_TBS inp)%nat ->
                             length (picked inp (val_of js) tb) = 1%nat).
  { intros tb Htb.
    assert (Hn : nth_error js tb = Some (nth tb js O)) by (apply nth_error_nth'; lia).
    rewrite (picked_val_of js tb _ Hn); [reflexivity|]. now apply Helig. }
  apply feasible_iff. split; [assumption|]. split.
  - intros i Hi. rewrite (picked_single_sum (val_of js)) by assumption.
    rewrite Hsel, <- uses_configs_of. now apply Huses.
  - rewrite (picked_single_sum (val_of js)) by assumption.
    now rewrite Hsel, <- total_chips_configs_of.
Qed.

(** *** Reading the configuration out of the variable values *)

Lemma fold_configs_length (v : valuation) (l : list var) (cfgs : list (option combo)) :
  length (fold_left (fun cfgs k =>
                       if v k then list_set cfgs (snd k) (Some (combo_at inp (fst k)))
                       else cfgs) l cfgs)
  = length cfgs.
Proof.
  revert cfgs. induction l as [|k l IH]; intros cfgs; cbn [fold_left]; [reflexivity|].
  rewrite IH. destruct (v k); [apply length_list_set|reflexivity].
Qed.

(** A slot ends up holding the combo of the last set variable of that slot. *)
Lemma fold_configs_nth (v : valuation) (l : list var) (cfgs : list (option combo))
      (t : nat) :
  (t < length cfgs)%nat ->
  nth t (fold_left (fun cfgs k =>
                      if v k then list_set cfgs (snd k) (Some (combo_at inp (fst k)))
                      else cfgs) l cfgs) None
  = last (map (fun k => Some (combo_at inp (fst k)))
              (filter (fun k => v k && (snd k =? t)%nat) l))
         (nth t cfgs None).
Proof.
  revert cfgs. induction l as [|k l IH]; intros cfgs Ht; cbn [fold_left filter];
    [reflexivity|].
  rewrite IH by (destruct (v k); [rewrite length_list_set|]; assumption).
  destruct (v k) eqn:Hv; cbn [andb]; [|reflexivity].
  destruct (Nat.eqb_spec (snd k) t) as [Heq|Hne].
  - cbn [map]. rewrite last_cons. now rewrite Heq, nth_list_set_eq.
  - now rewrite nth_list_set_neq.
Qed.

Lemma keys_filter_slot (v : valuation) (t : nat) :
  (t < NUM_TBS inp)%nat ->
  filter (fun k => v k && (snd k =? t)%nat) (x_keys inp)
  = map (fun j => (j, t)) (picked inp v t).
Proof.
  intros Ht. rewrite x_keys_eq, filter_flat_map.
  rewrite (flat_map_ext _ (fun u => if (u =? t)%nat
                                    then map (fun j => (j, u)) (picked inp v u) else [])).
  - apply (flat_map_delta (fun u => map (fun j => (j, u)) (picked inp v u)));
      [apply seq_NoDup|]. apply in_seq. lia.
  - intros u. apply filter_map_pair.
Qed.

Lemma tb_configs_feasible (v : valuation) :
  feasible (prob inp) v ->
  tb_configs inp v = map Some (configs_of inp (selection inp v)).
Proof.
  intros Hf. apply feasible_iff in Hf. destruct Hf as [Hslot _].
  set (f := fun tb => Some (combo_at inp (hd O (picked inp v tb)))).
  assert (Hr : map Some (configs_of inp (selection inp v)) = map f (seq 0 (NUM_TBS inp))).
  { unfold selection. now rewrite configs_of_eq, !map_map. }
  rewrite Hr. apply (nth_ext _ _ None (f O)).
  - unfold tb_configs.
    now rewrite fold_configs_length, repeat_length, length_map, length_seq.
  - intros t Ht. unfold tb_configs in Ht.
    rewrite fold_configs_length, repeat_length in Ht.
    unfold tb_configs. rewrite fold_configs_nth by now rewrite repeat_length.
    rewrite keys_filter_slot by assumption.
    rewrite map_nth, seq_nth by assumption. unfold f. cbn [Nat.add].
    specialize (Hslot t Ht).
    destruct (picked inp v t) as [|j [|j' l]]; try discriminate Hslot.
    reflexivity.
Qed.

End Selections.

(** * Assignments and selections *)

Lemma uses_cons (c : combo) (l : list combo) (i : nat) :
  uses (c :: l) i = (if mem i (idxs c) then 1 else 0) + uses l i.
Proof. reflexivity. Qed.

Lemma uses_nonneg (l : list combo) (i : nat) : 0 <= uses l i.
Proof.
  unfold uses. apply Zsum_nonneg. intros c _. destruct (mem i (idxs c)); lia.
Qed.

Lemma uses_one (l : list combo) (i t : nat) (c : combo) :
  nth_error l t = Some c -> In i (idxs c) -> 1 <= uses l i.
Proof.
  revert t. induction l as [|a l IH]; intros [|t] Hn Hi; try discriminate Hn.
  - injection Hn as ->. rewrite uses_cons. apply mem_In in Hi. rewrite Hi.
    pose proof (uses_nonneg l i). lia.
  - rewrite uses_cons. specialize (IH t Hn Hi). destruct (mem i (idxs a)); lia.
Qed.

(** An index in the groups of two slots is used at least twice. *)
Lemma uses_two (l : list combo) (i t1 t2 : nat) (c1 c2 : combo) :
  t1 <> t2 -> nth_error l t1 = Some c1 -> nth_error l t2 = Some c2 ->
  In i (idxs c1) -> In i (idxs c2) -> 2 <= uses l i.
Proof.
  revert t1 t2. induction l as [|a l IH]; intros [|t1] [|t2] Hne H1 H2 Hi1 Hi2;
    try discriminate H1; try discriminate H2; try (exfalso; now apply Hne).
  - injection H1 as ->. rewrite uses_cons. apply mem_In in Hi1. rewrite Hi1.
    pose proof (uses_one l i t2 c2 H2 Hi2). lia.
  - injection H2 as ->. rewrite uses_cons. apply mem_In in Hi2. rewrite Hi2.
    pose proof (uses_one l i t1 c1 H1 Hi1). lia.
  - rewrite uses_cons.
    assert (2 <= uses l i) by (apply (IH t1 t2); auto).
    destruct (mem i (idxs a)); lia.
Qed.

Lemma disjoint_slots_tail (c : combo) (l : list combo) :
  disjoint_slots (c :: l) -> disjoint_slots l.
Proof.
  intros H t1 t2 c1 c2 i Hne H1 H2. apply (H (S t1) (S t2) c1 c2 i); auto.
Qed.

Lemma disjoint_uses (l : list combo) (i : nat) : disjoint_slots l -> uses l i <= 1.
Proof.
  induction l as [|c l IH]; intros Hd; [unfold uses; simpl; lia|].
  rewrite uses_cons. specialize (IH (disjoint_slots_tail _ _ Hd)).
  destruct (mem i (idxs c)) eqn:Hm; [|lia].
  assert (uses l i = 0); [|lia].
  unfold uses. apply Zsum_zero. intros c' Hc'.
  destruct (mem i (idxs c')) eqn:Hm'; [|reflexivity].
  exfalso. apply In_nth_error in Hc'. destruct Hc' as [t Ht].
  apply (Hd O (S t) c c' i); auto. all: now apply mem_In.
Qed.

Section Assignments.

Variable inp : input.

Lemma combo_at_In (j : nat) :
  (j < length (combos inp))%nat -> In (combo_at inp j) (combos inp).
Proof. intros H. now apply nth_In. Qed.

Lemma nth_error_configs_of (js : list nat) (tb : nat) (c : combo) :
  nth_error (configs_of inp js) tb = Some c ->
  exists j, nth_error js tb = Some j /\ c = combo_at inp j.
Proof.
  rewrite configs_of_eq, nth_error_map. destruct (nth_error js tb) as [j|]; [|discriminate].
  cbn. intros H. injection H as <-. now exists j.
Qed.

(** A feasible selection is a feasible assignment of candidate groups ... *)
Lemma sel_feasible_assignment (js : list nat) :
  sel_feasible inp js -> feasible_assignment inp (configs_of inp js).
Proof.
  intros [Hlen [Helig [Huses Hchips]]]. unfold feasible_assignment.
  assert (Hin : forall tb c, nth_error (configs_of inp js) tb = Some c ->
                             In c (combos inp)).
  { intros tb c Hn. apply nth_error_configs_of in Hn. destruct Hn as [j [Hj ->]].
    apply combo_at_In. apply Helig in Hj. now apply in_elig_list in Hj. }
  split; [|split; [|split; [|split]]].
  - now rewrite configs_of_eq, length_map.
  - apply Forall_forall. intros c Hc. apply In_nth_error in Hc.
    destruct Hc as [tb Htb]. now apply (Hin tb).
  - intros tb c Hn. apply nth_error_configs_of in Hn. destruct Hn as [j [Hj ->]].
    apply Helig in Hj. apply in_elig_list in Hj. apply Hj.
  - intros t1 t2 c1 c2 i Hne H1 H2 Hi1 Hi2.
    pose proof (uses_two _ i t1 t2 c1 c2 Hne H1 H2 Hi1 Hi2) as H2u.
    assert (Hi : (i < length (part_instance_list inp))%nat).
    { apply (combos_idxs_below inp c1); [now apply (Hin t1)|assumption]. }
    specialize (Huses i Hi). lia.
  - assumption.
Qed.

(** ... and every feasible assignment is the reading of a feasible selection. *)
Lemma assignment_sel_feasible (cfgs : list combo) :
  feasible_assignment inp cfgs ->
  exists js, sel_feasible inp js /\ configs_of inp js = cfgs.
Proof.
  intros [Hlen [Hall [Hmin [Hdis Hchips]]]].
  assert (Hjs : exists js, map (combo_at inp) js = cfgs /\
                           Forall (fun j => (j < length (combos inp))%nat) js).
  { clear Hlen Hmin Hdis Hchips. induction Hall as [|c l Hc Hl IH].
    - now exists [].
    - destruct IH as [js [Hmap Hlt]].
      destruct (In_nth _ _ no_combo Hc) as [j [Hj Hnth]].
      exists (j :: js). split; [cbn [map]; unfold combo_at at 1; now rewrite Hnth, Hmap|].
      now constructor. }
  destruct Hjs as [js [Hmap Hlt]]. exists js.
  assert (Hcfg : configs_of inp js = cfgs) by now rewrite configs_of_eq.
  split; [|assumption]. unfold sel_feasible. rewrite Hcfg.
  split; [|split; [|split]].
  - rewrite <- Hlen, <- Hmap. now rewrite length_map.
  - intros tb j Hn. apply in_elig_list. split.
    + rewrite Forall_forall in Hlt. apply Hlt. now apply nth_error_In in Hn.
    + unfold eligible. apply Hmin. rewrite <- Hmap, nth_error_map, Hn. reflexivity.
  - intros i _. now apply disjoint_uses.
  - assumption.
Qed.

End Assignments.

(** * The exhaustive search meets the solver's contract *)

Lemma in_product {A : Type} (ls : list (list A)) (l : list A) :
  In l (product ls) <-> Forall2 (@In A) l ls.
Proof.
  revert l. induction ls as [|m ls IH]; intros l; cbn [product].
  - split.
    + intros [<-|[]]. constructor.
    + intros H. inversion H. now left.
  - rewrite in_flat_map. split.
    + intros [a [Ha Hl]]. apply in_map_iff in Hl. destruct Hl as [t [<- Ht]].
      constructor; [assumption|]. now apply IH.
    + intros H. inversion H as [|a m' t ls' Ha Ht]; subst.
      exists a. split; [assumption|]. apply in_map_iff. exists t. split; [reflexivity|].
      now apply IH.
Qed.

Lemma Forall2_In_seq (g : nat -> list nat) (n s : nat) (js : list nat) :
  Forall2 (@In nat) js (map g (seq s n)) <->
  length js = n /\ forall tb j, nth_error js tb = Some j -> In j (g (s + tb)%nat).
Proof.
  revert s js. induction n as [|n IH]; intros s js; cbn [seq map].
  - split.
    + intros H. inversion H. split; [reflexivity|]. intros [|tb] j Hn; discriminate Hn.
    + intros [Hlen _]. apply length_zero_iff_nil in Hlen. subst. constructor.
  - split.
    + intros H. inversion H as [|j m js' ls Hj Hjs]; subst.
      apply IH in Hjs. destruct Hjs as [Hlen Hnth]. split; [cbn; now f_equal|].
      intros [|tb] j' Hn.
      * injection Hn as <-. now rewrite Nat.add_0_r.
      * cbn in Hn. apply Hnth in Hn. now rewrite <- plus_n_Sm.
    + intros [Hlen Hnth]. destruct js as [|j js]; [discriminate|].
      constructor.
      * specialize (Hnth O j eq_refl). now rewrite Nat.add_0_r in Hnth.
      * apply IH. split; [now injection Hlen|].
        intros tb j' Hn. specialize (Hnth (S tb) j' Hn). now rewrite <- plus_n_Sm in Hnth.
Qed.

Section Reference.

Variable inp : input.

Lemma sel_ok_iff (js : list nat) :
  sel_ok inp js = true <->
  (forall i, (i < length (part_instance_list inp))%nat -> uses (configs_of inp js) i <= 1) /\
  total_chips (configs_of inp js) <= total_chips_available inp.
Proof.
  unfold sel_ok. cbv zeta. rewrite andb_true_iff, forallb_forall, Z.leb_le.
  split; intros [H1 H2]; (split; [|assumption]).
  - intros i Hi. apply Z.leb_le. apply H1. apply in_seq. lia.
  - intros i Hi. apply Z.leb_le. apply H1. apply in_seq in Hi. lia.
Qed.

Lemma in_selections (js : list nat) : In js (selections inp) <-> sel_feasible inp js.
Proof.
  unfold selections, sel_feasible.
  rewrite filter_In, in_product, Forall2_In_seq, sel_ok_iff. cbn [Nat.add]. tauto.
Qed.

Lemma better_spec (b : option (list nat)) (a : list nat) :
  exists w, better inp b a = Some w /\ (w = a \/ b = Some w) /\
            total_score (configs_of inp a) <= total_score (configs_of inp w) /\
            forall y, b = Some y ->
                      total_score (configs_of inp y) <= total_score (configs_of inp w).
Proof.
  destruct b as [b|]; cbn [better].
  - destruct (Z.ltb_spec (total_score (configs_of inp b)) (total_score (configs_of inp a))).
    + exists a. repeat split; auto; try lia. intros y Hy. injection Hy as <-. lia.
    + exists b. repeat split; auto; try lia. intros y Hy. injection Hy as <-. lia.
  - exists a. repeat split; auto; try lia. intros y Hy. discriminate Hy.
Qed.

Lemma fold_better_spec (l : list (list nat)) (b : option (list nat)) :
  match fold_left (better inp) l b with
  | None => b = None /\ l = []
  | Some x =>
      (b = Some x \/ In x l) /\
      forall y, b = Some y \/ In y l ->
                total_score (configs_of inp y) <= total_score (configs_of inp x)
  end.
Proof.
  revert b. induction l as [|a l IH]; intros b; cbn [fold_left].
  - destruct b as [x|]; [|now split]. split; [now left|].
    intros y [Hy|[]]. injection Hy as <-. lia.
  - specialize (IH (better inp b a)).
    destruct (better_spec b a) as [w [Hw [Hwa [Hsa Hsb]]]].
    destruct (fold_left (better inp) l (better inp b a)) as [x|].
    + destruct IH as [Hx Hmax]. split.
      * destruct Hx as [Hx|Hx]; [|right; now right].
        rewrite Hw in Hx. injection Hx as <-.
        destruct Hwa as [->|Hwb]; [right; now left|now left].
      * assert (Hwx : total_score (configs_of inp w) <= total_score (configs_of inp x))
          by (apply Hmax; now left).
        intros y [Hy|[<-|Hy]].
        -- specialize (Hsb y Hy). lia.
        -- lia.
        -- apply Hmax. now right.
    + destruct IH as [Hnone _]. rewrite Hw in Hnone. discriminate Hnone.
Qed.

Lemma reference_solve_spec :
  match reference_solve inp with
  | Some js =>
      sel_feasible inp js /\
      forall js', sel_feasible inp js' ->
                  total_score (configs_of inp js') <= total_score (configs_of inp js)
  | None => forall js, ~ sel_feasible inp js
  end.
Proof.
  unfold reference_solve. pose proof (fold_better_spec (selections inp) None) as H.
  destruct (fold_left (better inp) (selections inp) None) as [js|].
  - destruct H as [[H|H] Hmax]; [discriminate H|]. split; [now apply in_selections|].
    intros js' Hjs'. apply Hmax. right. now apply in_selections.
  - destruct H as [_ Hnil]. intros js Hjs. apply in_selections in Hjs.
    rewrite Hnil in Hjs. contradiction.
Qed.

Lemma reference_none_infeasible :
  reference_solve inp = None -> forall v, ~ feasible (prob inp) v.
Proof.
  intros Hn v Hv. pose proof reference_solve_spec as H. rewrite Hn in H.
  apply (H (selection inp v)). now apply feasible_selection.
Qed.

(** The search is a solver in the sense of [pulp_solve], at every tolerance:
    for every input the contract can be met. *)
Lemma reference_solve_contract (tol : Z) :
  0 <= tol -> pulp_solve tol (prob inp) (option_map val_of (reference_solve inp)).
Proof.
  intros Htol. pose proof reference_solve_spec as H.
  destruct (reference_solve inp) as [js|]; cbn [option_map].
  - destruct H as [Hjs Hmax]. constructor. split; [now apply sel_feasible_lp|].
    intros w Hw. rewrite (feasible_objective inp w Hw).
    rewrite (feasible_objective inp (val_of js)) by now apply sel_feasible_lp.
    rewrite selection_val_of by assumption.
    pose proof (Hmax _ (feasible_selection inp w Hw)). lia.
  - constructor. intros v Hv. apply (H (selection inp v)). now apply feasible_selection.
Qed.

End Reference.

(** * The outcomes of the Solve button *)

Section Outcomes.

Variable tol : Z.
Variable inp : input.

(** Every outcome the contract allows, in terms of the exhaustive search:
    a rejection, no configuration when the search finds none, or the reading of
    a feasible selection that scores within the tolerance of the one the search
    finds. *)
Lemma Solve_outcomes (o : outcome) :
  Solve tol inp o ->
  (input_issues inp <> [] /\ o = FixInputIssues (input_issues inp)) \/
  (input_issues inp = [] /\ reference_solve inp = None /\ o = NoValidConfiguration) \/
  (input_issues inp = [] /\
   exists js b,
     reference_solve inp = Some b /\ sel_feasible inp js /\
     total_score (configs_of inp js) <= total_score (configs_of inp b) /\
     total_score (configs_of inp b) <= total_score (configs_of inp js) + tol /\
     o = BestConfiguration (configs_of inp js) (total_resonance_sum (configs_of inp js))).
Proof.
  pose proof (reference_solve_spec inp) as Href.
  intros H. destruct H as [Hi|v cfgs Hi Hs Hc|v Hi Hs Hc|Hi Hs].
  - left. now split.
  - right. right. split; [assumption|].
    inversion Hs as [v' [Hf Hopt]|]; subst.
    rewrite (tb_configs_feasible inp v Hf), all_configs_map_Some in Hc.
    injection Hc as <-.
    pose proof (feasible_selection inp v Hf) as Hsel.
    destruct (reference_solve inp) as [b|]; [|exfalso; now apply (Href (selection inp v))].
    destruct Href as [Hb Hmax]. exists (selection inp v), b.
    split; [reflexivity|]. split; [assumption|]. split; [now apply Hmax|].
    split; [|reflexivity].
    pose proof (Hopt (val_of b) (sel_feasible_lp inp b Hb)) as Hle.
    rewrite (feasible_objective inp v Hf) in Hle.
    rewrite (feasible_objective inp (val_of b)) in Hle by now apply sel_feasible_lp.
    now rewrite selection_val_of in Hle.
  - exfalso. inversion Hs as [v' [Hf Hopt]|]; subst.
    rewrite (tb_configs_feasible inp v Hf), all_configs_map_Some in Hc. discriminate Hc.
  - right. left. split; [assumption|]. split; [|reflexivity].
    inversion Hs as [|Hnone]; subst.
    destruct (reference_solve inp) as [b|]; [|reflexivity].
    destruct Href as [Hb _]. exfalso. apply (Hnone (val_of b)). now apply sel_feasible_lp.
Qed.

(** A feasible selection that scores within the tolerance of the search's is
    an answer the contract allows. *)
Lemma Solve_selection (js b : list nat) :
  input_issues inp = [] ->
  reference_solve inp = Some b ->
  sel_feasible inp js ->
  total_score (configs_of inp b) <= total_score (configs_of inp js) + tol ->
  Solve tol inp (BestConfiguration (configs_of inp js)
                                   (total_resonance_sum (configs_of inp js))).
Proof.
  intros Hi Hb Hjs Hle. pose proof (reference_solve_spec inp) as Href.
  rewrite Hb in Href. destruct Href as [_ Hmax].
  pose proof (sel_feasible_lp inp js Hjs) as Hf.
  apply (Solve_best tol inp (val_of js)); [assumption| |].
  - constructor. split; [assumption|]. intros w Hw.
    rewrite (feasible_objective inp w Hw), (feasible_objective inp _ Hf).
    rewrite selection_val_of by assumption.
    specialize (Hmax _ (feasible_selection inp w Hw)). lia.
  - rewrite (tb_configs_feasible inp _ Hf), selection_val_of by assumption.
    apply all_configs_map_Some.
Qed.

(** The handler, run on an answer the contract allows, computes an outcome
    the contract allows. *)
Lemma Solve_button_contract (answer : option valuation) :
  pulp_solve tol (prob inp) answer -> Solve tol inp (Solve_button inp answer).
Proof.
  intros Hc. unfold Solve_button.
  destruct (input_issues inp) as [|s l] eqn:Hi.
  - destruct answer as [v|].
    + destruct (all_configs (tb_configs inp v)) as [cfgs|] eqn:Ha.
      * now apply (Solve_best tol inp v).
      * now apply (Solve_missing tol inp v).
    + now apply Solve_none.
  - rewrite <- Hi. apply Solve_issues. now rewrite Hi.
Qed.

(** Run with the exhaustive search as its solver, the handler computes one
    of the outcomes the contract allows. *)
Lemma Solve_button_reference :
  0 <= tol ->
  Solve tol inp (Solve_button inp (option_map val_of (reference_solve inp))).
Proof.
  intros Htol. apply Solve_button_contract. now apply reference_solve_contract.
Qed.

(** The handler always ends in one of its outcomes. *)
Lemma Solve_total : 0 <= tol -> exists o, Solve tol inp o.
Proof.
  intros Htol. eexists. now apply Solve_button_reference.
Qed.

(** The table loop never meets a missing config. *)
Lemma Solve_never_missing : ~ Solve tol inp ConfigMissing.
Proof.
  intros H. apply Solve_outcomes in H.
  destruct H as [[_ H]|[[_ [_ H]]|[_ [js [b [_ [_ [_ [_ H]]]]]]]]]; discriminate H.
Qed.

Lemma Solve_best_inv (cfgs : list combo) (total : float) :
  Solve tol inp (BestConfiguration cfgs total) ->
  input_issues inp = [] /\ total = total_resonance_sum cfgs /\
  exists js, sel_feasible inp js /\ cfgs = configs_of inp js /\
             forall js', sel_feasible inp js' ->
                         total_score (configs_of inp js') <= total_score cfgs + tol.
Proof.
  intros H. apply Solve_outcomes in H.
  destruct H as [[_ H]|[[_ [_ H]]|[Hi [js [b [Hb [Hjs [_ [Hsc H]]]]]]]]];
    try discriminate H.
  injection H as -> ->. split; [assumption|]. split; [reflexivity|].
  exists js. split; [assumption|]. split; [reflexivity|].
  pose proof (reference_solve_spec inp) as Href. rewrite Hb in Href.
  destruct Href as [_ Hmax]. intros js' Hjs'. specialize (Hmax js' Hjs'). lia.
Qed.

Lemma Solve_issues_only (o : outcome) :
  input_issues inp <> [] -> Solve tol inp o -> o = FixInputIssues (input_issues inp).
Proof.
  intros Hne H. apply Solve_outcomes in H.
  destruct H as [[_ H]|[[Hi _]|[Hi _]]]; [assumption|contradiction|contradiction].
Qed.

End Outcomes.

(** * Two runs on the same inputs *)

Section SameInputs.

Variables a b : input.
Hypothesis Hsame : same_inputs a b.

Lemma same_part_instance_list : part_instance_list a = part_instance_list b.
Proof.
  destruct Hsame as [_ [_ [Hp _]]]. unfold part_instance_list.
  apply flat_map_ext. intros p. now rewrite Hp.
Qed.

Lemma same_input_issues : input_issues a = input_issues b.
Proof.
  destruct Hsame as [Hn [Hc [Hp Hm]]]. unfold input_issues, parts_total.
  rewrite Hn, Hc, Hm. now rewrite (map_ext _ _ Hp).
Qed.

Lemma same_combos : combos a = combos b.
Proof. unfold combos. now rewrite same_part_instance_list. Qed.

Lemma same_x_keys : x_keys a = x_keys b.
Proof.
  destruct Hsame as [Hn [_ [_ Hm]]]. unfold x_keys.
  now rewrite same_combos, Hn, Hm.
Qed.

(** The program handed to the solver is the same. *)
Lemma same_prob : prob a = prob b.
Proof.
  destruct Hsame as [Hn [Hc _]]. unfold prob, combo_at.
  now rewrite same_x_keys, same_combos, same_part_instance_list, Hn, Hc.
Qed.

(** And its answer is read in the same way. *)
Lemma same_tb_configs (v : valuation) : tb_configs a v = tb_configs b v.
Proof.
  destruct Hsame as [Hn _]. unfold tb_configs, combo_at.
  now rewrite same_x_keys, same_combos, Hn.
Qed.

End SameInputs.

(** * The claims about a returned assignment *)


(** C3. In an assignment returned on success no part instance index appears
    in the candidate groups of two different slots. *)
Theorem success_uses_each_instance_once
    (tol : Z) (inp : input) (cfgs : list combo) (total : float) :
  Solve tol inp (BestConfiguration cfgs total) -> disjoint_slots cfgs.
Proof.
  intros H. apply Solve_best_inv in H. destruct H as [_ [_ [js [Hjs [-> _]]]]].
  apply (sel_feasible_assignment inp js Hjs).
Qed.

(** C4. In an assignment returned on success every slot holds a candidate
    group, and the score of the group of a slot is at least that slot's
    minimum requirement. *)
Theorem success_meets_minimums
    (tol : Z) (inp : input) (cfgs : list combo) (total : float) :
  Solve tol inp (BestConfiguration cfgs total) ->
  length cfgs = NUM_TBS inp /\
  forall tb c, nth_error cfgs tb = Some c ->
    float_ge_int (resonance c) (nth tb (min_reqs_per_tb inp) 0) = true.
Proof.
  intros H. apply Solve_best_inv in H. destruct H as [_ [_ [js [Hjs [-> _]]]]].
  pose proof (sel_feasible_assignment inp js Hjs) as [Hlen [_ [Hmin _]]].
  now split.
Qed.

(** C5. In an assignment returned on success the chip costs of the assigned
    candidate groups add up to at most the total chips available. *)
Theorem success_within_chips
    (tol : Z) (inp : input) (cfgs : list combo) (total : float) :
  Solve tol inp (BestConfiguration cfgs total) ->
  total_chips cfgs <= total_chips_available inp.
Proof.
  intros H. apply Solve_best_inv in H. destruct H as [_ [_ [js [Hjs [-> _]]]]].
  apply (sel_feasible_assignment inp js Hjs).
Qed.


(** * Validation *)

Lemma unit_scale_pos : 0 < unit_scale.
Proof. reflexivity. Qed.

(** The threshold of the third check is 21500: the sum of all ten base values
    (4300) times the largest multiplier (5.0). *)
Lemma int_gt_min_threshold (x : Z) : int_gt_float x min_threshold = (21500 <? x).
Proof.
  unfold int_gt_float.
  assert (Hm : exists m e, Prim2SF min_threshold = S754_finite false m e)
    by (vm_compute; eauto).
  destruct Hm as [m [e Hm]]. rewrite Hm.
  assert (Hu : float_units min_threshold = 21500 * unit_scale)
    by (vm_compute; reflexivity).
  rewrite Hu. pose proof unit_scale_pos as Hs.
  destruct (Z.ltb_spec (21500 * unit_scale) (x * unit_scale));
    destruct (Z.ltb_spec 21500 x); try reflexivity; nia.
Qed.

Lemma not_enough_parts_issue (inp : input) :
  (parts_total inp < PARTS_PER_TB * NUM_TBS inp)%nat ->
  In NOT_ENOUGH_PARTS (input_issues inp).
Proof.
  intros H. unfold input_issues. apply Nat.ltb_lt in H. rewrite H.
  apply in_or_app. left. now left.
Qed.

Lemma low_chips_issue (inp : input) :
  total_chips_available inp < Z.of_nat (NUM_TBS inp) ->
  In LOW_CHIPS (input_issues inp).
Proof.
  intros H. unfold input_issues. apply Z.ltb_lt in H. rewrite H.
  apply in_or_app. right. apply in_or_app. left. now left.
Qed.

Lemma too_high_issue (inp : input) (tb : nat) :
  (tb < NUM_TBS inp)%nat -> 21500 < minreq inp tb ->
  In TOO_HIGH (input_issues inp).
Proof.
  intros Htb H. unfold input_issues.
  assert (He : existsb (fun x => int_gt_float x min_threshold) (min_reqs_per_tb inp) = true).
  { apply existsb_exists. exists (minreq inp tb). split.
    - unfold min_reqs_per_tb. apply in_map. apply in_seq. lia.
    - rewrite int_gt_min_threshold. now apply Z.ltb_lt. }
  rewrite He. apply in_or_app. right. apply in_or_app. right. now left.
Qed.

Lemma issue_rejects (tol : Z) (inp : input) (s : string) (o : outcome) :
  In s (input_issues inp) -> Solve tol inp o -> o = FixInputIssues (input_issues inp).
Proof.
  intros Hin. apply Solve_issues_only. intros Hnil. now rewrite Hnil in Hin.
Qed.

(** * The largest score a candidate group can have *)

Lemma float_ge_int_mono (f : float) (z z' : Z) :
  z <= z' -> float_ge_int f z' = true -> float_ge_int f z = true.
Proof.
  unfold float_ge_int. intros Hz. pose proof unit_scale_pos.
  destruct (Prim2SF f); try (intros; assumption);
    rewrite !Z.leb_le; nia.
Qed.

Lemma in_part_keys (p : part) : In p part_keys.
Proof. destruct p; cbn; tauto. Qed.

(** No triple of part types with any table multiplier reaches 15001 ... *)
Lemma scores_below_15001 :
  forallb (fun p1 => forallb (fun p2 => forallb (fun p3 =>
    forallb (fun cm : Z * float =>
               negb (float_ge_int (float_of_int (base_of [p1; p2; p3]) * snd cm)%float
                                  15001))
            MULTIPLIER_DATA) part_keys) part_keys) part_keys = true.
Proof. vm_compute. reflexivity. Qed.

(** ... so 15000, the score of three E parts at multiplier 5.0, is the largest
    score of a candidate group, whatever the inventory. *)
Lemma max_candidate_score (inp : input) (c : combo) (z : Z) :
  In c (combos inp) -> 15000 < z -> float_ge_int (resonance c) z = false.
Proof.
  intros Hc Hz. pose proof (combos_idxs inp c Hc) as [Hlen _].
  apply in_combos in Hc. destruct Hc as [ix [cm [_ [Hcm ->]]]]. cbn [resonance idxs] in *.
  destruct ix as [|i1 [|i2 [|i3 [|i4 ix]]]]; try discriminate Hlen. cbn [map].
  pose proof scores_below_15001 as H.
  rewrite forallb_forall in H. specialize (H _ (in_part_keys (nth i1 (part_instance_list inp) E))).
  rewrite forallb_forall in H. specialize (H _ (in_part_keys (nth i2 (part_instance_list inp) E))).
  rewrite forallb_forall in H. specialize (H _ (in_part_keys (nth i3 (part_instance_list inp) E))).
  rewrite forallb_forall in H. specialize (H _ Hcm). apply negb_true_iff in H.
  destruct (float_ge_int _ z) eqn:Hge; [|reflexivity].
  apply (float_ge_int_mono _ 15001 z) in Hge; [congruence|lia].
Qed.

Lemma best_candidate_score :
  float_units (float_of_int (base_of [E; E; E]) * 5.0)%float = 15000 * unit_scale.
Proof. vm_compute. reflexivity. Qed.

(** The float product is not the real product: three parts of base score
    200 at multiplier 4.6 score 919.9999999999999, which misses a minimum of
    920 and is displayed as 919. *)
Lemma rounded_product_below_920 :
  float_ge_int (float_of_int (base_of [Y; Y; Y1]) * 4.6)%float 920 = false /\
  float_ge_int (float_of_int (base_of [Y; Y; Y1]) * 4.6)%float 919 = true /\
  int_of_float (float_of_int (base_of [Y; Y; Y1]) * 4.6)%float = 919.
Proof. vm_compute. repeat split; reflexivity. Qed.

(** Python's running float total depends on the order of the slots: the same
    three scores add up to 1840.0 in one order and to 1839.9999999999998 in
    another.  This is why totals are compared as exact sums. *)
Lemma float_total_depends_on_order :
  let a := (float_of_int 200 * 2.2)%float in
  let b := (float_of_int 350 * 1.4)%float in
  let c := (float_of_int 650 * 1.4)%float in
  int_of_float (float_of_int 0 + a + b + c)%float = 1840 /\
  int_of_float (float_of_int 0 + b + c + a)%float = 1839.
Proof. vm_compute. split; reflexivity. Qed.

(** The sample inputs are values the form can deliver. *)
Lemma samples_well_formed :
  Forall well_formed
    [inp_E2_R2; inp_min_16000; inp_min_22000; inp_two_parts; inp_no_chips; inp_two_tbs].
Proof.
  repeat constructor; cbn; try lia; intros i; try lia; destruct i; lia.
Qed.

(** * Sample runs *)

Lemma listed_sound (inp : input) (js : list nat) :
  listed inp js = true -> sel_feasible inp js.
Proof.
  unfold listed. rewrite existsb_exists. intros [l [Hl Heq]].
  destruct (list_eq_dec Nat.eq_dec l js) as [->|]; [|discriminate].
  now apply in_selections.
Qed.

Lemma unit_scale_nonneg : 0 <= unit_scale.
Proof. apply Z.lt_le_incl. reflexivity. Qed.

Lemma Solve_two_tbs (tol : Z) :
  0 <= tol -> Solve tol inp_two_tbs (BestConfiguration cfgs_two_tbs 25350%float).
Proof.
  intros Htol.
  assert (H : Solve tol inp_two_tbs
                (BestConfiguration (configs_of inp_two_tbs [20; 417]%nat)
                   (total_resonance_sum (configs_of inp_two_tbs [20; 417]%nat)))).
  { apply (Solve_selection tol inp_two_tbs _ [20; 417]%nat).
    - vm_compute. reflexivity.
    - vm_compute. reflexivity.
    - apply listed_sound. vm_compute. reflexivity.
    - lia. }
  replace (configs_of inp_two_tbs [20; 417]%nat) with cfgs_two_tbs in H
    by (vm_compute; reflexivity).
  exact H.
Qed.

Lemma reference_E2_R2 : reference_solve inp_E2_R2 = Some [5%nat].
Proof. vm_compute. reflexivity. Qed.

Lemma Solve_E2_R2 (tol : Z) :
  0 <= tol -> Solve tol inp_E2_R2 (BestConfiguration cfgs_E2_R2 5100%float).
Proof.
  intros Htol.
  assert (H : Solve tol inp_E2_R2
                (BestConfiguration (configs_of inp_E2_R2 [5%nat])
                   (total_resonance_sum (configs_of inp_E2_R2 [5%nat])))).
  { apply (Solve_selection tol inp_E2_R2 _ [5%nat]).
    - vm_compute. reflexivity.
    - apply reference_E2_R2.
    - apply listed_sound. vm_compute. reflexivity.
    - lia. }
  replace (configs_of inp_E2_R2 [5%nat]) with cfgs_E2_R2 in H
    by (vm_compute; reflexivity).
  exact H.
Qed.

Lemma Solve_E2_R2' (tol : Z) :
  0 <= tol -> Solve tol inp_E2_R2 (BestConfiguration cfgs_E2_R2' 5100%float).
Proof.
  intros Htol.
  assert (H : Solve tol inp_E2_R2
                (BestConfiguration (configs_of inp_E2_R2 [26%nat])
                   (total_resonance_sum (configs_of inp_E2_R2 [26%nat])))).
  { apply (Solve_selection tol inp_E2_R2 _ [5%nat]).
    - vm_compute. reflexivity.
    - apply reference_E2_R2.
    - apply listed_sound. vm_compute. reflexivity.
    - assert (Heq : total_score (configs_of inp_E2_R2 [5%nat])
                    = total_score (configs_of inp_E2_R2 [26%nat]))
        by (vm_compute; reflexivity).
      rewrite Heq. lia. }
  replace (configs_of inp_E2_R2 [26%nat]) with cfgs_E2_R2' in H
    by (vm_compute; reflexivity).
  exact H.
Qed.

(** Below a tolerance of 510 points, the distance between the best score
    (5100) and the next one (4590), every run on the E:2, R2:2 input ends with
    E, E, R2 at the cost-9 entry. *)
Lemma Solve_E2_R2_outcomes (tol : Z) (o : outcome) :
  tol < 510 * unit_scale ->
  Solve tol inp_E2_R2 o ->
  o = BestConfiguration cfgs_E2_R2 5100%float \/
  o = BestConfiguration cfgs_E2_R2' 5100%float.
Proof.
  intros Htol H. apply Solve_outcomes in H.
  destruct H as [[Hi _]|[[_ [Hr _]]|[_ [js [b [Hb [Hjs [_ [Hsc ->]]]]]]]]].
  - exfalso. apply Hi. vm_compute. reflexivity.
  - rewrite reference_E2_R2 in Hr. discriminate Hr.
  - rewrite reference_E2_R2 in Hb. injection Hb as <-.
    apply in_selections in Hjs.
    assert (Hchk : forallb (fun l =>
               (total_score (configs_of inp_E2_R2 l) + 510 * unit_scale
                <=? total_score (configs_of inp_E2_R2 [5%nat]))
               || (if list_eq_dec Nat.eq_dec l [5%nat] then true else false)
               || (if list_eq_dec Nat.eq_dec l [26%nat] then true else false))
             (selections inp_E2_R2) = true) by (vm_compute; reflexivity).
    rewrite forallb_forall in Hchk. specialize (Hchk js Hjs).
    destruct (list_eq_dec Nat.eq_dec js [5%nat]) as [->|_].
    + left. replace (configs_of inp_E2_R2 [5%nat]) with cfgs_E2_R2
        by (vm_compute; reflexivity). reflexivity.
    + destruct (list_eq_dec Nat.eq_dec js [26%nat]) as [->|_].
      * right. replace (configs_of inp_E2_R2 [26%nat]) with cfgs_E2_R2'
          by (vm_compute; reflexivity). reflexivity.
      * exfalso. rewrite !orb_false_r in Hchk. apply Z.leb_le in Hchk.
        revert Htol Hsc Hchk. generalize unit_scale. intros u. lia.
Qed.

(** Whatever the tolerance, no run on the E:2, R2:2 input shows a total of
    4300. *)
Lemma Solve_E2_R2_totals (tol : Z) (cfgs : list combo) (total : float) :
  Solve tol inp_E2_R2 (BestConfiguration cfgs total) -> int_of_float total <> 4300.
Proof.
  intros H. apply Solve_best_inv in H. destruct H as [_ [-> [js [Hjs [-> _]]]]].
  apply in_selections in Hjs.
  assert (Hchk : forallb (fun l =>
             negb (int_of_float (total_resonance_sum (configs_of inp_E2_R2 l)) =? 4300))
           (selections inp_E2_R2) = true) by (vm_compute; reflexivity).
  rewrite forallb_forall in Hchk. specialize (Hchk js Hjs).
  apply negb_true_iff in Hchk. now apply Z.eqb_neq in Hchk.
Qed.

Lemma Solve_button_E2_R2 :
  Solve_button inp_E2_R2 (option_map val_of (reference_solve inp_E2_R2))
  = BestConfiguration cfgs_E2_R2 5100%float.
Proof. vm_compute. reflexivity. Qed.

Lemma Solve_button_two_tbs :
  Solve_button inp_two_tbs (option_map val_of (reference_solve inp_two_tbs))
  = BestConfiguration cfgs_two_tbs 25350%float.
Proof. vm_compute. reflexivity. Qed.

Lemma Solve_min_16000 (tol : Z) : Solve tol inp_min_16000 NoValidConfiguration.
Proof.
  apply Solve_none; [vm_compute; reflexivity|].
  constructor. apply reference_none_infeasible. vm_compute. reflexivity.
Qed.

Lemma Solve_two_parts (tol : Z) :
  Solve tol inp_two_parts (FixInputIssues [NOT_ENOUGH_PARTS]).
Proof.
  change [NOT_ENOUGH_PARTS] with (input_issues inp_two_parts).
  apply Solve_issues. vm_compute. discriminate.
Qed.

Lemma Solve_no_chips (tol : Z) : Solve tol inp_no_chips (FixInputIssues [LOW_CHIPS]).
Proof.
  change [LOW_CHIPS] with (input_issues inp_no_chips).
  apply Solve_issues. vm_compute. discriminate.
Qed.

Lemma Solve_min_22000 (tol : Z) : Solve tol inp_min_22000 (FixInputIssues [TOO_HIGH]).
Proof.
  change [TOO_HIGH] with (input_issues inp_min_22000).
  apply Solve_issues. vm_compute. discriminate.
Qed.

(** With the chip check left aside, the no-chips input has a feasible
    assignment: three E parts at the cost-0 entry. *)
Lemma no_chips_feasible : feasible_assignment inp_no_chips cfgs_no_chips.
Proof.
  replace cfgs_no_chips with (configs_of inp_no_chips [0%nat])
    by (vm_compute; reflexivity).
  apply sel_feasible_assignment. apply listed_sound. vm_compute. reflexivity.
Qed.

(** *** The near tie

    On the inventory R3:1, R2:2, R:3 with 89 chips and minimums 7920 and 1800
    the search finds R3, R2, R2 at 72 chips with R, R, R at 16 chips.  The
    float product 1800 * 4.4 lies [2^-40] above 7920, so this assignment
    scores [2^-40] more than R3, R2, R2 at 78 chips with R, R, R at 9 chips,
    which is 8280 + 1800 = 10080 exactly. *)

Lemma reference_near_tie : reference_solve inp_near_tie = Some [17; 406]%nat.
Proof. vm_compute. reflexivity. Qed.

Lemma near_tie_configs :
  configs_of inp_near_tie [18; 404]%nat = cfgs_near_tie /\
  configs_of inp_near_tie [17; 406]%nat = cfgs_near_tie_better.
Proof. split; vm_compute; reflexivity. Qed.

Lemma near_tie_gap :
  total_score cfgs_near_tie_better = total_score cfgs_near_tie + 2 ^ 1034.
Proof. vm_compute. reflexivity. Qed.

Lemma near_tie_feasible :
  feasible_assignment inp_near_tie cfgs_near_tie /\
  feasible_assignment inp_near_tie cfgs_near_tie_better.
Proof.
  destruct near_tie_configs as [<- <-].
  split; apply sel_feasible_assignment; apply listed_sound; vm_compute; reflexivity.
Qed.

(** A solver whose tolerance is [2^-40] or more may answer with the lower of
    the two. *)
Lemma Solve_near_tie (tol : Z) :
  2 ^ 1034 <= tol ->
  Solve tol inp_near_tie (BestConfiguration cfgs_near_tie 10080%float).
Proof.
  intros Htol. destruct near_tie_configs as [Hc Hc'].
  assert (H : Solve tol inp_near_tie
                (BestConfiguration (configs_of inp_near_tie [18; 404]%nat)
                   (total_resonance_sum (configs_of inp_near_tie [18; 404]%nat)))).
  { apply (Solve_selection tol inp_near_tie _ [17; 406]%nat).
    - vm_compute. reflexivity.
    - apply reference_near_tie.
    - apply listed_sound. vm_compute. reflexivity.
    - rewrite Hc, Hc', near_tie_gap. lia. }
  rewrite Hc in H.
  replace (total_resonance_sum cfgs_near_tie) with 10080%float in H
    by (vm_compute; reflexivity).
  exact H.
Qed.

(** * Witnesses for the claims about a returned assignment *)



Lemma success_uses_each_instance_once_witness :
  Solve unit_scale inp_two_tbs (BestConfiguration cfgs_two_tbs 25350%float) /\
  disjoint_slots cfgs_two_tbs.
Proof.
  split; [exact (Solve_two_tbs unit_scale unit_scale_nonneg)|].
  exact (success_uses_each_instance_once unit_scale inp_two_tbs cfgs_two_tbs
           25350%float (Solve_two_tbs unit_scale unit_scale_nonneg)).
Defined.

Lemma success_meets_minimums_witness :
  Solve unit_scale inp_two_tbs (BestConfiguration cfgs_two_tbs 25350%float) /\
  (length cfgs_two_tbs = NUM_TBS inp_two_tbs /\
   forall tb c, nth_error cfgs_two_tbs tb = Some c ->
     float_ge_int (resonance c) (nth tb (min_reqs_per_tb inp_two_tbs) 0) = true).
Proof.
  split; [exact (Solve_two_tbs unit_scale unit_scale_nonneg)|].
  exact (success_meets_minimums unit_scale inp_two_tbs cfgs_two_tbs 25350%float
           (Solve_two_tbs unit_scale unit_scale_nonneg)).
Defined.

Lemma success_within_chips_witness :
  Solve unit_scale inp_two_tbs (BestConfiguration cfgs_two_tbs 25350%float) /\
  total_chips cfgs_two_tbs <= total_chips_available inp_two_tbs.
Proof.
  split; [exact (Solve_two_tbs unit_scale unit_scale_nonneg)|].
  exact (success_within_chips unit_scale inp_two_tbs cfgs_two_tbs 25350%float
           (Solve_two_tbs unit_scale unit_scale_nonneg)).
Defined.

Lemma same_inputs_E2_R2 : same_inputs inp_E2_R2 inp_E2_R2_again.
Proof. repeat split. Qed.


(** * The concrete scenario *)

(** C6, as the script has it.  On the inventory E:2, R2:2 with 9 chips and
    one TB of minimum 0 the solve succeeds, and every run returns the parts
    E, E, R2 (base score 2550) with the cost-9 entry of multiplier 2.0, for a
    total score of 5100.  This holds for a solver that is exact and for every
    solver whose tolerance is below 510 points, the distance to the next
    score. *)
Theorem scenario_E2_R2_scores_5100 (tol : Z) :
  0 <= tol < 510 * unit_scale ->
  (exists o, Solve tol inp_E2_R2 o) /\
  forall o, Solve tol inp_E2_R2 o ->
    exists c,
      o = BestConfiguration [c] 5100%float /\
      parts c = [E; E; R2] /\ base_of (parts c) = 2550 /\
      chips c = 9 /\ In (chips c, 2.0%float) MULTIPLIER_DATA /\
      resonance c = (float_of_int 2550 * 2.0)%float /\
      total_score [c] = 5100 * unit_scale /\
      int_of_float 5100%float = 5100.
Proof.
  intros [Htol Hlt].
  split; [exists (BestConfiguration cfgs_E2_R2 5100%float); now apply Solve_E2_R2|].
  intros o Ho. apply (Solve_E2_R2_outcomes tol o Hlt) in Ho. destruct Ho as [->| ->].
  - eexists. split; [reflexivity|]. cbn [parts chips resonance].
    repeat split; try reflexivity. cbn. tauto.
  - eexists. split; [reflexivity|]. cbn [parts chips resonance].
    repeat split; try reflexivity. cbn. tauto.
Qed.

Lemma tolerance_of_one_point : 0 <= unit_scale < 510 * unit_scale.
Proof. pose proof unit_scale_nonneg. assert (0 < unit_scale) by reflexivity. lia. Qed.

Lemma scenario_E2_R2_scores_5100_witness :
  0 <= unit_scale < 510 * unit_scale /\
  ((exists o, Solve unit_scale inp_E2_R2 o) /\
   forall o, Solve unit_scale inp_E2_R2 o ->
     exists c,
       o = BestConfiguration [c] 5100%float /\
       parts c = [E; E; R2] /\ base_of (parts c) = 2550 /\
       chips c = 9 /\ In (chips c, 2.0%float) MULTIPLIER_DATA /\
       resonance c = (float_of_int 2550 * 2.0)%float /\
       total_score [c] = 5100 * unit_scale /\
       int_of_float 5100%float = 5100).
Proof.
  split; [exact tolerance_of_one_point|].
  exact (scenario_E2_R2_scores_5100 unit_scale tolerance_of_one_point).
Defined.

(** The scenario as the claim words it fails: E, E, R2 has base score 2550,
    not 2150, and no run ends with a total of 4300, whatever the tolerance of
    the solver. *)
Lemma scenario_E2_R2_not_4300 :
  base_of [E; E; R2] = 2550 /\
  (forall tol, 0 <= tol ->
     Solve tol inp_E2_R2 (BestConfiguration cfgs_E2_R2 5100%float)) /\
  ~ (exists tol cfgs total,
        Solve tol inp_E2_R2 (BestConfiguration cfgs total) /\
        int_of_float total = 4300).
Proof.
  split; [reflexivity|]. split; [exact Solve_E2_R2|].
  intros [tol [cfgs [total [Ho Htot]]]]. now apply Solve_E2_R2_totals in Ho.
Qed.

(** * Rejections *)

(** C7, as the script has it.  When the minimum of some slot exceeds 21500,
    the sum of all ten base values times the largest multiplier, the input is
    rejected with the "impossibly high" issue and the solve is not attempted. *)
Theorem minimum_above_21500_is_rejected (tol : Z) (inp : input) (tb : nat) :
  (tb < NUM_TBS inp)%nat -> 21500 < minreq inp tb ->
  In TOO_HIGH (input_issues inp) /\
  forall o, Solve tol inp o -> o = FixInputIssues (input_issues inp).
Proof.
  intros Htb Hmin. pose proof (too_high_issue inp tb Htb Hmin) as Hin.
  split; [assumption|]. intros o. now apply (issue_rejects tol inp TOO_HIGH).
Qed.

Lemma minimum_above_21500_is_rejected_witness :
  (0 < NUM_TBS inp_min_22000)%nat /\ 21500 < minreq inp_min_22000 0 /\
  (In TOO_HIGH (input_issues inp_min_22000) /\
   forall o, Solve unit_scale inp_min_22000 o ->
             o = FixInputIssues (input_issues inp_min_22000)).
Proof.
  split; [cbn; lia|]. split; [cbn; lia|].
  apply (minimum_above_21500_is_rejected unit_scale inp_min_22000 0); cbn; lia.
Defined.

(** A minimum of 16000 is above the largest score a candidate group can have
    (15000), yet the input passes validation and the solve is attempted; it
    ends with no valid configuration. *)
Lemma minimum_16000_is_not_rejected :
  minreq inp_min_16000 0 = 16000 /\
  (forall inp c, In c (combos inp) -> float_ge_int (resonance c) 16000 = false) /\
  input_issues inp_min_16000 = [] /\
  (forall tol, Solve tol inp_min_16000 NoValidConfiguration) /\
  ~ (exists tol issues, Solve tol inp_min_16000 (FixInputIssues issues)).
Proof.
  split; [reflexivity|]. split.
  { intros inp c Hc. apply (max_candidate_score inp c 16000 Hc). lia. }
  split; [vm_compute; reflexivity|]. split; [exact Solve_min_16000|].
  intros [tol [issues H]]. apply Solve_outcomes in H.
  destruct H as [[Hi _]|[[_ [_ H]]|[_ [js [b [_ [_ [_ [_ H]]]]]]]]]; try discriminate H.
  apply Hi. vm_compute. reflexivity.
Qed.

(** C8, as the script has it.  When the number of part instances is below
    three times the number of slots, the input is rejected with the "not
    enough parts" issue: the solve is not attempted and no assignment is
    returned. *)
Theorem too_few_parts_is_rejected (tol : Z) (inp : input) :
  (length (part_instance_list inp) < 3 * NUM_TBS inp)%nat ->
  In NOT_ENOUGH_PARTS (input_issues inp) /\
  forall o, Solve tol inp o -> o = FixInputIssues (input_issues inp).
Proof.
  intros H. rewrite length_part_instance_list in H.
  pose proof (not_enough_parts_issue inp H) as Hin.
  split; [assumption|]. intros o. now apply (issue_rejects tol inp NOT_ENOUGH_PARTS).
Qed.

Lemma too_few_parts_is_rejected_witness :
  (length (part_instance_list inp_two_parts) < 3 * NUM_TBS inp_two_parts)%nat /\
  (In NOT_ENOUGH_PARTS (input_issues inp_two_parts) /\
   forall o, Solve unit_scale inp_two_parts o ->
             o = FixInputIssues (input_issues inp_two_parts)).
Proof.
  split; [cbn; lia|].
  apply (too_few_parts_is_rejected unit_scale inp_two_parts). cbn. lia.
Defined.

(** With two parts and one slot the run is a rejection; the outcome of a
    solve that finds no configuration is not what is reported. *)
Lemma too_few_parts_is_not_a_solver_report :
  (length (part_instance_list inp_two_parts) < 3 * NUM_TBS inp_two_parts)%nat /\
  (forall tol, Solve tol inp_two_parts (FixInputIssues [NOT_ENOUGH_PARTS])) /\
  ~ (exists tol, Solve tol inp_two_parts NoValidConfiguration).
Proof.
  split; [cbn; lia|]. split; [exact Solve_two_parts|].
  intros [tol H]. apply Solve_outcomes in H.
  destruct H as [[_ H]|[[Hi _]|[_ [js [b [_ [_ [_ [_ H]]]]]]]]];
    [discriminate H|vm_compute in Hi; discriminate Hi|discriminate H].
Qed.

(** C10. When the chips available are fewer than the slots, the input is
    rejected with the "chips are very low" issue and the solve is not
    attempted, whatever the minimums and whether or not a feasible assignment
    exists. *)
Theorem low_chips_is_rejected (tol : Z) (inp : input) :
  total_chips_available inp < Z.of_nat (NUM_TBS inp) ->
  In LOW_CHIPS (input_issues inp) /\
  forall o, Solve tol inp o -> o = FixInputIssues (input_issues inp).
Proof.
  intros H. pose proof (low_chips_issue inp H) as Hin.
  split; [assumption|]. intros o. now apply (issue_rejects tol inp LOW_CHIPS).
Qed.

(** No chips, one slot of minimum 0, three E parts: the cost-0 entry gives a
    feasible assignment, and the run is rejected all the same. *)
Lemma low_chips_is_rejected_witness :
  total_chips_available inp_no_chips < Z.of_nat (NUM_TBS inp_no_chips) /\
  (forall i, minreq inp_no_chips i = 0) /\
  feasible_assignment inp_no_chips cfgs_no_chips /\
  Solve unit_scale inp_no_chips (FixInputIssues [LOW_CHIPS]) /\
  (In LOW_CHIPS (input_issues inp_no_chips) /\
   forall o, Solve unit_scale inp_no_chips o ->
             o = FixInputIssues (input_issues inp_no_chips)).
Proof.
  split; [cbn; lia|]. split; [reflexivity|]. split; [exact no_chips_feasible|].
  split; [exact (Solve_no_chips unit_scale)|].
  apply (low_chips_is_rejected unit_scale inp_no_chips). cbn. lia.
Defined.

(** * More about validation *)

Lemma high_minimum_check (inp : input) :
  existsb (fun x => int_gt_float x min_threshold) (min_reqs_per_tb inp) = true <->
  exists tb, (tb < NUM_TBS inp)%nat /\ 21500 < minreq inp tb.
Proof.
  rewrite existsb_exists. unfold min_reqs_per_tb. split.
  - intros [x [Hx Hgt]]. apply in_map_iff in Hx. destruct Hx as [tb [<- Htb]].
    apply in_seq in Htb. rewrite int_gt_min_threshold in Hgt. apply Z.ltb_lt in Hgt.
    exists tb. split; [lia|assumption].
  - intros [tb [Htb Hgt]]. exists (minreq inp tb). split.
    + apply in_map. apply in_seq. lia.
    + rewrite int_gt_min_threshold. now apply Z.ltb_lt.
Qed.

Lemma issues_by_check (a b c : bool) :
  let l := (if a then [NOT_ENOUGH_PARTS] else [])
           ++ (if b then [LOW_CHIPS] else [])
           ++ (if c then [TOO_HIGH] else []) in
  (l = [] <-> a = false /\ b = false /\ c = false) /\
  (In NOT_ENOUGH_PARTS l <-> a = true) /\
  (In LOW_CHIPS l <-> b = true) /\
  (In TOO_HIGH l <-> c = true).
Proof.
  unfold NOT_ENOUGH_PARTS, LOW_CHIPS, TOO_HIGH.
  destruct a, b, c; cbn; intuition (try discriminate; try congruence).
Qed.

(** X1. The list of input issues is empty exactly when there are at least
    three parts per TB, at least one chip per TB and no minimum above 21500;
    and each of the three messages is listed exactly when its own check
    fires. *)
Theorem validation_issues_iff (inp : input) :
  (input_issues inp = [] <->
     (PARTS_PER_TB * NUM_TBS inp <= parts_total inp)%nat /\
     Z.of_nat (NUM_TBS inp) <= total_chips_available inp /\
     forall tb, (tb < NUM_TBS inp)%nat -> minreq inp tb <= 21500) /\
  (In NOT_ENOUGH_PARTS (input_issues inp) <->
     (parts_total inp < PARTS_PER_TB * NUM_TBS inp)%nat) /\
  (In LOW_CHIPS (input_issues inp) <->
     total_chips_available inp < Z.of_nat (NUM_TBS inp)) /\
  (In TOO_HIGH (input_issues inp) <->
     exists tb, (tb < NUM_TBS inp)%nat /\ 21500 < minreq inp tb).
Proof.
  pose proof (high_minimum_check inp) as Hhigh.
  pose proof (issues_by_check
                (parts_total inp <? PARTS_PER_TB * NUM_TBS inp)%nat
                (total_chips_available inp <? Z.of_nat (NUM_TBS inp))
                (existsb (fun x => int_gt_float x min_threshold) (min_reqs_per_tb inp)))
    as [Hnil [Hparts [Hchips Hmin]]].
  cbv zeta in Hnil, Hparts, Hchips, Hmin. fold (input_issues inp) in *.
  split; [|split; [|split]].
  - rewrite Hnil, Nat.ltb_ge, Z.ltb_ge. split.
    + intros [Hp [Hc Hm]]. split; [assumption|]. split; [assumption|].
      intros tb Htb. destruct (Z.le_gt_cases (minreq inp tb) 21500) as [|Hgt];
        [assumption|].
      assert (Hex : exists tb, (tb < NUM_TBS inp)%nat /\ 21500 < minreq inp tb)
        by (exists tb; split; [assumption|lia]).
      apply Hhigh in Hex. congruence.
    + intros [Hp [Hc Hm]]. split; [assumption|]. split; [assumption|].
      destruct (existsb _ _) eqn:He; [|reflexivity].
      destruct (proj1 Hhigh eq_refl) as [tb [Htb Hgt]]. specialize (Hm tb Htb). lia.
  - now rewrite Hparts, Nat.ltb_lt.
  - now rewrite Hchips, Z.ltb_lt.
  - now rewrite Hmin.
Qed.
